(** * director.viewerclient: the lazy scene tree, the command queue and the
    publish / response protocol of [CoreVisualizer]

    A shallow embedding of [src/python/director/viewerclient.py].

    - Python floats and ints are rationals ([Q]); a 4x4 numpy array is a list
      of rows.
    - A [dict] built by the serializers is a [JObj] association list in
      insertion order; the children [defaultdict] of a tree node is a
      [gmap string LazyTree.t]; the three [set]s of the queue are
      [gset (list string)].  The model iterates over the children in the
      order of [map_fold] and over a set in the order of [elements]; Python
      iterates over a [set] in an unspecified order.  Every statement about
      [descendants] or about an emitted list is therefore about membership
      (and the number of records of a path), never about positions.
    - Objects mutated in place (the tree reached through [getdescendant], the
      queue, the transport) live in one [CoreVisualizer.t] state threaded by
      a state-and-exception monad: a raised exception keeps the mutations
      made before it, as in Python.
    - The wall clock and the outcome of the transport send are inputs of
      each call ([Env]).  [json.dumps], [msg.encode] and the handler thread
      are not modelled: a message carries its [data] as a JSON value. *)

From stdpp Require Import gmap strings list fin_maps.
From Stdlib Require Import QArith Ascii.

#[local] Set Warnings "-clear-no-such-hyp".

Close Scope Q_scope.

Local Open Scope string_scope.
Local Open Scope list_scope.

(** ** JSON values: what [json.loads] returns and [json.dumps] accepts *)

#[warnings="-register-all"]
Inductive json : Type :=
  | JNull
  | JBool (b : bool)
  | JNum (q : Q)
  | JStr (s : string)
  | JArr (items : list json)
  | JObj (fields : list (string * json)).

(** [d[key]] on a dict read back from JSON. *)
Fixpoint dict_get (key : string) (fields : list (string * json)) : option json :=
  match fields with
  | [] => None
  | (k, v) :: rest => if decide (k = key) then Some v else dict_get key rest
  end.

(** [d[key] = v]: replaces the value of an existing key in place, or appends
    the new key. *)
Fixpoint dict_set (key : string) (v : json) (fields : list (string * json))
  : list (string * json) :=
  match fields with
  | [] => [(key, v)]
  | (k, w) :: rest =>
      if decide (k = key) then (k, v) :: rest else (k, w) :: dict_set key v rest
  end.

(** Python's [x == n] for a value read from JSON and a number [n]:
    [True == 1] and [False == 0] hold, [1.0 == 1] holds, every other type is
    different from a number. *)
Definition py_eq_num (x : json) (n : Q) : bool :=
  match x with
  | JNum q => Qeq_bool q n
  | JBool b => Qeq_bool (if b then 1 else 0) n
  | _ => false
  end.

Definition json_nums (l : list Q) : json := JArr (JNum <$> l).

(** A path is a tuple of names; in a message it is the array of its names. *)
Abbreviation path := (list string).

Definition json_path (p : path) : json := JArr (JStr <$> p).

(** ** Transforms *)

(** A 4x4 homogeneous transform, as rows. *)
Definition Matrix : Type := list (list Q).

(** [np.eye(4)] *)
Definition eye4 : Matrix :=
  [ [1; 0; 0; 0]; [0; 1; 0; 0]; [0; 0; 1; 0]; [0; 0; 0; 1] ]%Q.

(** Modelled from the spec: [director.thirdparty.transformations] is not among
    the sources; [serialize_transform] calls its [translation_from_matrix] and
    [quaternion_from_matrix].  The spec describes them as the transform codec
    that converts an affine 4x4 transform into a translation vector [x,y,z]
    and a rotation quaternion [w,x,y,z].  They are taken as an interface; what
    they return on the identity is a hypothesis wherever it is used. *)
Class TransformCodec : Type := {
  translation_from_matrix : Matrix → list Q;
  quaternion_from_matrix : Matrix → list Q
}.

Definition serialize_transform `{TransformCodec} (tform : Matrix) : json :=
  JObj [ ("translation", json_nums (translation_from_matrix tform));
         ("quaternion", json_nums (quaternion_from_matrix tform)) ].

(** A codec to run the model on concrete scenes: the translation is the last
    column, and the quaternion is exact on transforms without rotation. *)
Definition last_column (m : Matrix) : list Q :=
  (λ row, default 0%Q (row !! 3%nat)) <$> take 3 m.

Definition translation_codec : TransformCodec := {|
  translation_from_matrix := last_column;
  quaternion_from_matrix := λ _, [1; 0; 0; 0]%Q
|}.

(** ** Geometry primitives and instances *)

Inductive BaseGeometry : Type :=
  | Box (lengths : list Q)
  | Sphere (radius : Q)
  | Ellipsoid (radii : list Q)
  | Cylinder (length radius : Q)
  | Triad.

Module BaseGeometry.
Definition serialize (self : BaseGeometry) : list (string * json) :=
  match self with
  | Box lengths =>
      [ ("type", JStr "box"); ("lengths", json_nums lengths) ]
  | Sphere radius =>
      [ ("type", JStr "sphere"); ("radius", JNum radius) ]
  | Ellipsoid radii =>
      [ ("type", JStr "ellipsoid"); ("radii", json_nums radii) ]
  | Cylinder length radius =>
      [ ("type", JStr "cylinder"); ("length", JNum length);
        ("radius", JNum radius) ]
  | Triad =>
      [ ("type", JStr "triad") ]
  end.
End BaseGeometry.

Module GeometryData.
Record t : Type := Build {
  geometry : BaseGeometry;
  color : list Q;
  transform : Matrix
}.

(** [GeometryData(geometry)] with the default color and transform. *)
Definition new (geometry : BaseGeometry) : t :=
  Build geometry [1; 1; 1; 1]%Q eye4.

Definition serialize `{TransformCodec} (self : t) : json :=
  let params := BaseGeometry.serialize (geometry self) in
  let params := dict_set "color" (json_nums (color self)) params in
  let params :=
    dict_set "transform" (serialize_transform (transform self)) params in
  JObj params.
End GeometryData.

(** ** The lazy tree *)

Module LazyTree.
#[warnings="-register-all"]
Inductive t : Type := Node {
  geometries : list GeometryData.t;
  transform : Matrix;
  children : gmap string t
}.

(** [LazyTree()] *)
Definition new : t := Node [] eye4 ∅.

(** [self[item]]: the child, created when missing.  The creation is
    recorded by whoever stores the child back (see [getdescendant]). *)
Definition getitem (self : t) (item : string) : t :=
  default new (children self !! item).

(** [self.getdescendant(path)] returns a reference into the tree.  The model
    returns the node together with the function that stores a (possibly
    modified) node back at that place and gives the whole tree, in which
    every node on the way has been created. *)
Fixpoint getdescendant (self : t) (p : path) : t * (t → t) :=
  match p with
  | [] => (self, λ node, node)
  | item :: rest =>
      let '(node, store) := getdescendant (getitem self item) rest in
      (node,
       λ node', Node (geometries self) (transform self)
                     (<[item := store node']> (children self)))
  end.

Fixpoint descendants (self : t) (prefix : path) : list path :=
  map_fold
    (λ key val result,
       let childpath := prefix ++ [key] in
       result ++ childpath :: descendants val childpath)
    [] (children self).

(** Lookup without creation: the node at [p], when there is one.  Not in
    the source; it is the observation [descendants] is characterised by. *)
Fixpoint find (self : t) (p : path) : option t :=
  match p with
  | [] => Some self
  | item :: rest => children self !! item ≫= λ child, find child rest
  end.

(** The number of nodes; the measure for induction on a tree. *)
Fixpoint size (self : t) : nat :=
  S (map_fold (λ _ val n, size val + n) 0 (children self)).

(** The node a read [self.getdescendant(p)] returns, and the tree the read
    leaves behind. *)
Definition node_at (self : t) (p : path) : t := (getdescendant self p).1.

Definition touch (self : t) (p : path) : t :=
  (getdescendant self p).2 (node_at self p).

(** An attribute assignment [self.getdescendant(p).attr = value]. *)
Definition assign (self : t) (p : path) (f : t → t) : t :=
  (getdescendant self p).2 (f (node_at self p)).

(** [node.geometries = geoms] and [node.transform = tform] *)
Definition with_geometries (geoms : list GeometryData.t) (node : t) : t :=
  Node geoms (transform node) (children node).

Definition with_transform (tform : Matrix) (node : t) : t :=
  Node (geometries node) tform (children node).

(** [del self.getdescendant(parent).children[name]] when the child is there:
    the child and all below it are dropped from the node read at [parent]. *)
Definition remove_child (self : t) (parent : path) (name : string) : t :=
  (getdescendant self parent).2
    (Node (geometries (node_at self parent)) (transform (node_at self parent))
          (base.delete name (children (node_at self parent)))).
End LazyTree.

(** ** The command queue *)

Module CommandQueue.
Record t : Type := Build {
  draw : gset path;
  load : gset path;
  delete : gset path
}.

Definition new : t := Build ∅ ∅ ∅.

(** [not (self.draw or self.load or self.delete)] *)
Definition isempty (self : t) : bool :=
  negb (negb (bool_decide (draw self = ∅))
        || negb (bool_decide (load self = ∅))
        || negb (bool_decide (delete self = ∅))).

Definition empty (self : t) : t := Build ∅ ∅ ∅.
End CommandQueue.

(** ** Exceptions, and the monad of the methods of [CoreVisualizer] *)

Inductive exn : Type :=
  | KeyError (key : string)
  | TypeError
  | ValueError (message : string)
  | TransportError.

Inductive outcome (A : Type) : Type :=
  | Returned (a : A)
  | Raised (e : exn).
Arguments Returned {A} a.
Arguments Raised {A} e.

(** What a call reads from outside the object: the clock
    ([int(time.time() * 1e6)]) and whether [lcm.publish] returns or raises. *)
Record Env : Type := {
  utime_now : Z;
  transport_up : bool
}.

(** [viewer2_comms_t] as filled by [to_lcm]; [data] is kept as the JSON value
    that [json.dumps] is applied to. *)
Record viewer2_comms_t : Type := {
  utime : json;
  format : string;
  format_version_major : Z;
  format_version_minor : Z;
  data : json
}.

Definition to_lcm (data : json) : outcome viewer2_comms_t :=
  match data with
  | JObj fields =>
      match dict_get "utime" fields with
      | Some u => Returned
          {| utime := u;
             format := "treeviewer_json";
             format_version_major := 1;
             format_version_minor := 0;
             data := data |}
      | None => Raised (KeyError "utime")
      end
  | _ => Raised TypeError
  end.

Module CoreVisualizer.
(** [lcm] is the transport seen from this object: the messages it accepted,
    oldest first, each with its channel. *)
Record t : Type := Build {
  lcm : list (string * viewer2_comms_t);
  tree : LazyTree.t;
  queue : CommandQueue.t;
  publish_immediately : bool
}.

(** [CoreVisualizer(lcm)] *)
Definition new : t := Build [] LazyTree.new CommandQueue.new true.

Definition M (A : Type) : Type := t → outcome A * t.

Definition ret {A} (a : A) : M A := λ s, (Returned a, s).

Definition raise {A} (e : exn) : M A := λ s, (Raised e, s).

Definition bind {A B} (m : M A) (k : A → M B) : M B :=
  λ s, match m s with
       | (Returned a, s') => k a s'
       | (Raised e, s') => (Raised e, s')
       end.

Definition gets {A} (f : t → A) : M A := λ s, (Returned (f s), s).

Definition modify (f : t → t) : M unit := λ s, (Returned tt, f s).

Definition set_tree (tr : LazyTree.t) (s : t) : t :=
  Build (lcm s) tr (queue s) (publish_immediately s).

Definition set_queue (q : CommandQueue.t) (s : t) : t :=
  Build (lcm s) (tree s) q (publish_immediately s).

Definition set_lcm (l : list (string * viewer2_comms_t)) (s : t) : t :=
  Build l (tree s) (queue s) (publish_immediately s).

(** [self.queue.load.add(p)], [self.queue.draw.add(p)] and
    [self.queue.delete.add(p)] *)
Definition mark_load (p : path) (s : t) : t :=
  set_queue (CommandQueue.Build (CommandQueue.draw (queue s))
                                ({[ p ]} ∪ CommandQueue.load (queue s))
                                (CommandQueue.delete (queue s))) s.

Definition mark_draw (p : path) (s : t) : t :=
  set_queue (CommandQueue.Build ({[ p ]} ∪ CommandQueue.draw (queue s))
                                (CommandQueue.load (queue s))
                                (CommandQueue.delete (queue s))) s.

Definition mark_delete (p : path) (s : t) : t :=
  set_queue (CommandQueue.Build (CommandQueue.draw (queue s))
                                (CommandQueue.load (queue s))
                                ({[ p ]} ∪ CommandQueue.delete (queue s))) s.
End CoreVisualizer.

#[export] Instance core_ret : MRet CoreVisualizer.M := @CoreVisualizer.ret.
#[export] Instance core_bind : MBind CoreVisualizer.M :=
  λ A B k m, CoreVisualizer.bind m k.

(** What [load] accepts: a geometry, a [GeometryData], or a collection of
    either. *)
Inductive geom_item : Type :=
  | AsGeometry (g : BaseGeometry)
  | AsData (d : GeometryData.t).

Inductive geom_arg : Type :=
  | Single (x : geom_item)
  | Collection (items : list geom_item).

(** The methods of [CoreVisualizer]; every one takes the [Env] it runs in. *)
Module Core.
Import CoreVisualizer.

Section with_codec.
Context `{TransformCodec}.

(** [for x in xs: acc = body(acc, x)] *)
Fixpoint for_each {A B} (body : B → A → M B) (acc : B) (xs : list A) : M B :=
  match xs with
  | [] => ret acc
  | x :: rest => acc' ← body acc x; for_each body acc' rest
  end.

(** [self.tree.getdescendant(path)], read only: the nodes created on the way
    stay in the tree. *)
Definition tree_getdescendant (p : path) : M LazyTree.t :=
  λ s, (Returned (LazyTree.node_at (tree s) p),
        set_tree (LazyTree.touch (tree s) p) s).

(** [self.tree.getdescendant(path).attr = value] *)
Definition tree_setdescendant (p : path) (f : LazyTree.t → LazyTree.t) : M unit :=
  modify (λ s, set_tree (LazyTree.assign (tree s) p f) s).

Definition load_record (p : path) (geoms : list GeometryData.t) : json :=
  JObj [ ("path", json_path p);
         ("geometries", JArr (GeometryData.serialize <$> geoms)) ].

Definition draw_record (p : path) (tform : Matrix) : json :=
  JObj [ ("path", json_path p); ("transform", serialize_transform tform) ].

Definition delete_record (p : path) : json :=
  JObj [ ("path", json_path p) ].

Definition serialize_queue (e : Env) : M json :=
  q ← gets queue;
  delete ← for_each (λ delete p, ret (delete ++ [delete_record p]))
             [] (elements (CommandQueue.delete q));
  load ← for_each
           (λ load p,
              node ← tree_getdescendant p;
              match LazyTree.geometries node with
              | [] => ret load
              | geoms => ret (load ++ [load_record p geoms])
              end)
           [] (elements (CommandQueue.load q));
  draw ← for_each
           (λ draw p,
              node ← tree_getdescendant p;
              ret (draw ++ [draw_record p (LazyTree.transform node)]))
           [] (elements (CommandQueue.draw q));
  ret (JObj [ ("utime", JNum (inject_Z (utime_now e)));
              ("delete", JArr delete);
              ("load", JArr load);
              ("draw", JArr draw) ]).

(** [self.lcm.publish(channel, msg.encode())] *)
Definition lcm_publish (e : Env) (channel : string) (msg : viewer2_comms_t)
  : M unit :=
  if transport_up e
  then modify (λ s, set_lcm (lcm s ++ [(channel, msg)]) s)
  else raise TransportError.

Definition publish (e : Env) : M unit :=
  q ← gets queue;
  if CommandQueue.isempty q then ret tt
  else
    data ← serialize_queue e;
    msg ← (λ s, (to_lcm data, s));
    lcm_publish e "DIRECTOR_TREE_VIEWER_REQUEST" msg ;;
    modify (λ s, set_queue (CommandQueue.empty (queue s)) s).

Definition _maybe_publish (e : Env) : M unit :=
  λ s, if publish_immediately s then publish e s else ret tt s.

Definition _load (e : Env) (p : path) (geoms : list geom_item) : M unit :=
  let converted_geom_data :=
    (λ geom, match geom with
             | AsData d => d
             | AsGeometry g => GeometryData.new g
             end) <$> geoms in
  tree_setdescendant p (LazyTree.with_geometries converted_geom_data) ;;
  modify (mark_load p) ;;
  _maybe_publish e.

Definition load (e : Env) (p : path) (geomdata : geom_arg) : M unit :=
  match geomdata with
  | Single (AsGeometry g) => _load e p [AsData (GeometryData.new g)]
  | Collection items => _load e p items
  | Single (AsData d) => _load e p [AsData d]
  end.

Definition draw (e : Env) (p : path) (tform : Matrix) : M unit :=
  tree_setdescendant p (LazyTree.with_transform tform) ;;
  modify (mark_draw p) ;;
  _maybe_publish e.

(** [(path[:-1], path[-1])] of a non-empty tuple. *)
Fixpoint split_last (p : path) : option (path * string) :=
  match p with
  | [] => None
  | [x] => Some ([], x)
  | x :: rest => prod_map (cons x) id <$> split_last rest
  end.

Definition delete (e : Env) (p : path) : M unit :=
  match split_last p with
  | None => modify (set_tree LazyTree.new)
  | Some (parent, name) =>
      t ← tree_getdescendant parent;
      match LazyTree.children t !! name with
      | None => raise (KeyError name)
      | Some _ =>
          modify (λ s, set_tree (LazyTree.remove_child (tree s) parent name) s)
      end
  end ;;
  modify (mark_delete p) ;;
  _maybe_publish e.

(** [_handle_response]: [data] is [json.loads(msg.data)] of the decoded
    message.  The [ValueError] carries the text without the payload. *)
Definition _handle_response (data : json) : M unit :=
  match data with
  | JObj fields =>
      match dict_get "status" fields with
      | None => raise (KeyError "status")
      | Some status =>
          if py_eq_num status 0 then ret tt
          else if py_eq_num status 1 then
            paths ← gets (λ s, LazyTree.descendants (tree s) []);
            for_each
              (λ _ p, modify (mark_load p) ;; modify (mark_draw p))
              tt paths
          else raise (ValueError "Unhandles response from viewer")
      end
  | _ => raise TypeError
  end.

End with_codec.
End Core.

(** ** The visualizer handle *)

(** [s.split("/")] *)
Fixpoint split_slash (s : string) : list string :=
  match s with
  | EmptyString => [EmptyString]
  | String c rest =>
      if decide (c = "/"%char) then EmptyString :: split_slash rest
      else match split_slash rest with
           | [] => [String c EmptyString]
           | word :: words => String c word :: words
           end
  end.

(** A name without "/". *)
Fixpoint slash_free (s : string) : bool :=
  match s with
  | EmptyString => true
  | String c rest => negb (bool_decide (c = "/"%char)) && slash_free rest
  end.

(** The [path] argument of [Visualizer(path=...)]. *)
Inductive path_arg : Type :=
  | PathNone
  | PathStr (s : string)
  | PathTuple (p : list string).

Module Visualizer.
(** The [core] of a handle is the shared [CoreVisualizer.t] state its methods
    run in; the handle itself is its path. *)
Record t : Type := Build { path : list string }.

Definition new (p : path_arg) : t :=
  match p with
  | PathNone => Build []
  | PathStr s =>
      let parts := split_slash s in
      match parts with
      | EmptyString :: _ =>
          Build (filter (λ part, part ≠ EmptyString) parts)
      | _ => Build parts
      end
  | PathTuple parts => Build parts
  end.

Section with_codec.
Context `{TransformCodec}.

Definition load (e : Env) (self : t) (geomdata : geom_arg)
  : CoreVisualizer.M unit :=
  Core.load e (path self) geomdata.

Definition draw (e : Env) (self : t) (tform : Matrix) : CoreVisualizer.M unit :=
  Core.draw e (path self) tform.

Definition delete (e : Env) (self : t) : CoreVisualizer.M unit :=
  Core.delete e (path self).

Definition getitem (self : t) (name : string) : t :=
  Build (path self ++ [name]).
End with_codec.
End Visualizer.

(** ** Sequences of calls *)

Inductive call : Type :=
  | Load (p : path) (geomdata : geom_arg)
  | Draw (p : path) (tform : Matrix)
  | Delete (p : path).

Section calls.
Context `{TransformCodec}.

Definition run_call (e : Env) (k : call) : CoreVisualizer.M unit :=
  match k with
  | Load p geomdata => Core.load e p geomdata
  | Draw p tform => Core.draw e p tform
  | Delete p => Core.delete e p
  end.

(** The calls one after the other, each with what it reads from outside; an
    exception ends the sequence. *)
Fixpoint run_calls (ks : list (Env * call)) : CoreVisualizer.M unit :=
  match ks with
  | [] => mret tt
  | (e, k) :: rest => run_call e k ;; run_calls rest
  end.
End calls.

(** The path a call loads or draws. *)
Definition target (k : call) : option path :=
  match k with
  | Load p _ | Draw p _ => Some p
  | Delete _ => None
  end.

(** [k] deletes [q], directly or through an ancestor. *)
Definition deletes (k : call) (q : path) : Prop :=
  match k with
  | Delete d => d `prefix_of` q
  | _ => False
  end.

(** [q] was the target of a load or a draw and no later call deleted it. *)
Definition targeted_alive (ks : list call) (q : path) : Prop :=
  ∃ before k after,
    ks = before ++ k :: after ∧ target k = Some q ∧
    ∀ k', k' ∈ after → ¬ deletes k' q.

(** [q] is a node on the way to (or at) the target of a load or a draw, and
    no later call deleted it. *)
Definition reached_alive (ks : list call) (q : path) : Prop :=
  ∃ before k after p,
    ks = before ++ k :: after ∧ target k = Some p ∧
    q ≠ [] ∧ q `prefix_of` p ∧
    ∀ k', k' ∈ after → ¬ deletes k' q.

Definition up (t : Z) : Env := {| utime_now := t; transport_up := true |}.
Definition down (t : Z) : Env := {| utime_now := t; transport_up := false |}.

Definition unit_box : geom_arg := Single (AsGeometry (Box [1; 1; 1]%Q)).

Definition request_channel : string := "DIRECTOR_TREE_VIEWER_REQUEST".

(** ** What a flush emits and leaves, as functions of the tree before it *)

Section records.
Context `{TransformCodec}.

Definition load_records (tr : LazyTree.t) (ps : list path) : list json :=
  omap (λ p, match LazyTree.geometries (LazyTree.node_at tr p) with
             | [] => None
             | geoms => Some (Core.load_record p geoms)
             end) ps.

Definition draw_records (tr : LazyTree.t) (ps : list path) : list json :=
  (λ p, Core.draw_record p (LazyTree.transform (LazyTree.node_at tr p))) <$> ps.

Definition touch_all (tr : LazyTree.t) (ps : list path) : LazyTree.t :=
  foldl LazyTree.touch tr ps.

(** The dict [serialize_queue] builds for queue [q] over tree [tr]. *)
Definition queue_data (e : Env) (tr : LazyTree.t) (q : CommandQueue.t) : json :=
  JObj [ ("utime", JNum (inject_Z (utime_now e)));
         ("delete", JArr (Core.delete_record <$> elements (CommandQueue.delete q)));
         ("load", JArr (load_records tr (elements (CommandQueue.load q))));
         ("draw", JArr (draw_records tr (elements (CommandQueue.draw q)))) ].

Definition queue_message (e : Env) (tr : LazyTree.t) (q : CommandQueue.t)
  : viewer2_comms_t :=
  {| utime := JNum (inject_Z (utime_now e));
     format := "treeviewer_json";
     format_version_major := 1;
     format_version_minor := 0;
     data := queue_data e tr q |}.

(** The tree [serialize_queue] leaves: every marked path has been read. *)
Definition flushed_tree (tr : LazyTree.t) (q : CommandQueue.t) : LazyTree.t :=
  touch_all tr (elements (CommandQueue.load q) ++ elements (CommandQueue.draw q)).

(** The geometry list [load] stores for its argument. *)
Definition loaded (geomdata : geom_arg) : list GeometryData.t :=
  match geomdata with
  | Single (AsGeometry g) => [GeometryData.new g]
  | Single (AsData d) => [d]
  | Collection items =>
      (λ geom, match geom with
               | AsData d => d
               | AsGeometry g => GeometryData.new g
               end) <$> items
  end.

(** The state a flush leaves when the transport takes the message. *)
Definition flushed (e : Env) (s : CoreVisualizer.t) : CoreVisualizer.t :=
  let tr := CoreVisualizer.tree s in
  let q := CoreVisualizer.queue s in
  CoreVisualizer.Build
    (CoreVisualizer.lcm s ++ [(request_channel, queue_message e tr q)])
    (flushed_tree tr q)
    CommandQueue.new
    (CoreVisualizer.publish_immediately s).

(** The queue after every path of [ps] was marked for load and for draw. *)
Definition mark_all (ps : list path) (s : CoreVisualizer.t) : CoreVisualizer.t :=
  let q := CoreVisualizer.queue s in
  CoreVisualizer.set_queue
    (CommandQueue.Build (list_to_set ps ∪ CommandQueue.draw q)
                        (list_to_set ps ∪ CommandQueue.load q)
                        (CommandQueue.delete q)) s.

(** In immediate mode nothing is pending between two calls. *)
Definition settled (s : CoreVisualizer.t) : Prop :=
  CoreVisualizer.publish_immediately s = true →
  CommandQueue.isempty (CoreVisualizer.queue s) = true.
End records.

(** ** Reading an emitted message *)

(** The list under [key] ("delete", "load" or "draw") of a message. *)
Definition message_list (key : string) (msg : viewer2_comms_t) : list json :=
  match data msg with
  | JObj fields =>
      match dict_get key fields with
      | Some (JArr records) => records
      | _ => []
      end
  | _ => []
  end.

Fixpoint json_strings (items : list json) : option (list string) :=
  match items with
  | [] => Some []
  | JStr s :: rest => cons s <$> json_strings rest
  | _ :: _ => None
  end.

(** The record [r] is a dict whose "path" is [p]. *)
Definition has_path (p : path) (r : json) : bool :=
  match r with
  | JObj fields =>
      match dict_get "path" fields with
      | Some (JArr items) => bool_decide (json_strings items = Some p)
      | _ => false
      end
  | _ => false
  end.

(** ** Concrete scenes *)

(** A core in batch mode with nothing in it. *)
Definition batch_core : CoreVisualizer.t :=
  CoreVisualizer.Build [] LazyTree.new CommandQueue.new false.

(** [draw(("a",), eye)] in batch mode: one draw mark is pending. *)
Definition pending_draw : CoreVisualizer.t :=
  (Core.draw (H := translation_codec) (up 0) ["a"] eye4 batch_core).2.

(** [load(("a", "b"), Box([1, 1, 1]))] on a fresh core, published at once. *)
Definition loaded_ab : CoreVisualizer.t :=
  (Core.load (H := translation_codec) (up 0) ["a"; "b"] unit_box CoreVisualizer.new).2.

(** [draw(("a",), eye)] then [delete(("a",))] in batch mode: the draw mark is
    pending and its node is gone. *)
Definition drawn_then_deleted : CoreVisualizer.t :=
  (Core.delete (H := translation_codec) (up 1) ["a"] pending_draw).2.

(** [load(("a", "b"), Box([1, 1, 1]))] in batch mode: one load mark is
    pending. *)
Definition pending_load : CoreVisualizer.t :=
  (Core.load (H := translation_codec) (up 0) ["a"; "b"] unit_box batch_core).2.

Definition example_calls : list (Env * call) :=
  [ (up 0, Load ["a"; "b"] unit_box);
    (up 1, Draw ["c"] eye4);
    (up 2, Delete ["a"; "b"]) ].

(** A translation by (1, 0, 0). *)
Definition shifted : Matrix :=
  [ [1; 0; 0; 1]; [0; 1; 0; 0]; [0; 0; 1; 0]; [0; 0; 0; 1] ]%Q.

Definition resync_request : list (string * json) := [ ("status", JNum 1) ].

(** A quarter turn about the z axis. *)
Definition turned : Matrix :=
  [ [0; -1; 0; 0]; [1; 0; 0; 0]; [0; 0; 1; 0]; [0; 0; 0; 1] ]%Q.

(** * Properties *)

Ltac by_evaluation := apply (bool_decide_unpack _); vm_compute; exact I.

(** ** The lazy tree *)

Section tree_facts.
Import LazyTree.

Lemma size_unfold (self : t) :
  size self = S (map_fold (λ _ val n, size val + n) 0 (children self)).
Proof. by destruct self. Qed.

Lemma size_child (self : t) (item : string) (child : t) :
  children self !! item = Some child → size child < size self.
Proof.
  intros Hchild. rewrite (size_unfold self).
  rewrite (map_fold_delete_L _ _ item child); [lia | | done].
  intros; lia.
Qed.

(** Induction on a tree, with the hypothesis for every child. *)
Lemma tree_children_ind (P : t → Prop) :
  (∀ self, (∀ item child, children self !! item = Some child → P child) → P self) →
  ∀ self, P self.
Proof.
  intros step self.
  induction self as [self IH] using (induction_ltof1 _ size).
  apply step. intros item child Hchild. apply IH. by eapply size_child.
Qed.

Lemma descendants_unfold (self : t) (prefix : path) :
  descendants self prefix =
  foldr (λ kv result,
           result ++ (prefix ++ [kv.1]) :: descendants kv.2 (prefix ++ [kv.1]))
        [] (map_to_list (children self)).
Proof.
  destruct self as [g tf kids]; simpl. rewrite map_fold_foldr.
  generalize (map_to_list kids). intros l.
  induction l as [|[k v] l IH]; simpl; [done | by rewrite IH].
Qed.

Lemma elem_of_descendants_step (self : t) (prefix p : path) :
  p ∈ descendants self prefix ↔
  ∃ item child, children self !! item = Some child ∧
    (p = prefix ++ [item] ∨ p ∈ descendants child (prefix ++ [item])).
Proof.
  rewrite descendants_unfold.
  setoid_rewrite <- elem_of_map_to_list.
  generalize (map_to_list (children self)). intros l.
  induction l as [|[k v] l IH]; simpl.
  - split; [by intros ?%elem_of_nil | by intros (? & ? & ?%elem_of_nil & _)].
  - rewrite elem_of_app, elem_of_cons, IH. split.
    + intros [(i & c & Hin & Hp) | Hp].
      * exists i, c. split; [by right | done].
      * exists k, v. split; [by left | done].
    + intros (i & c & Hin & Hp). apply elem_of_cons in Hin as [Heq | Hin].
      * injection Heq as -> ->. by right.
      * left. by exists i, c.
Qed.

(** [descendants] lists the non-root nodes of the tree, below the prefix. *)
Lemma elem_of_descendants (self : t) (prefix p : path) :
  p ∈ descendants self prefix ↔
  ∃ q, q ≠ [] ∧ p = prefix ++ q ∧ is_Some (find self q).
Proof.
  revert prefix p. induction self as [self IH] using tree_children_ind.
  intros prefix p. rewrite elem_of_descendants_step. split.
  - intros (item & child & Hchild & [-> | Hp]).
    + exists [item]. simpl. rewrite Hchild. by eauto.
    + apply (IH _ _ Hchild) in Hp as (q & Hq & -> & Hfind).
      exists (item :: q). simpl. rewrite Hchild, <- app_assoc. by eauto.
  - intros (q & Hq & -> & Hfind). destruct q as [|item q]; [done |].
    simpl in Hfind. destruct (children self !! item) as [child|] eqn:Hchild;
      [| by destruct Hfind].
    exists item, child. split; [done |]. destruct q as [|item' q].
    + by left.
    + right. apply (IH _ _ Hchild). exists (item' :: q).
      by rewrite <- app_assoc.
Qed.

Lemma elem_of_descendants_root (self : t) (p : path) :
  p ∈ descendants self [] ↔ p ≠ [] ∧ is_Some (find self p).
Proof.
  rewrite elem_of_descendants. split.
  - by intros (q & Hq & -> & Hfind).
  - intros [Hp Hfind]. by exists p.
Qed.

Lemma getdescendant_cons (self : t) (item : string) (rest : path) :
  getdescendant self (item :: rest) =
  ((getdescendant (getitem self item) rest).1,
   λ node', Node (geometries self) (transform self)
              (<[item := (getdescendant (getitem self item) rest).2 node']>
                 (children self))).
Proof. simpl. by destruct (getdescendant (getitem self item) rest). Qed.

Lemma node_at_nil (self : t) : node_at self [] = self.
Proof. done. Qed.

Lemma node_at_cons (self : t) (item : string) (rest : path) :
  node_at self (item :: rest) = node_at (getitem self item) rest.
Proof. unfold node_at. by rewrite getdescendant_cons. Qed.

Lemma node_at_new (p : path) : node_at new p = new.
Proof. induction p as [|item p IH]; [done |]. by rewrite node_at_cons. Qed.

Lemma find_new (p : path) : p ≠ [] → find new p = None.
Proof. by destruct p. Qed.

(** A read returns the node that is there, or a fresh one. *)
Lemma node_at_find (self : t) (p : path) :
  node_at self p = default new (find self p).
Proof.
  revert self. induction p as [|item p IH]; intros self; [done |].
  rewrite node_at_cons, IH. unfold getitem. simpl.
  destruct (children self !! item) as [child|]; simpl; [done |].
  destruct p; [done | by rewrite find_new].
Qed.

Lemma node_at_app (self : t) (p r : path) :
  node_at self (p ++ r) = node_at (node_at self p) r.
Proof.
  revert self. induction p as [|item p IH]; intros self; [done |].
  simpl. by rewrite !node_at_cons, IH.
Qed.

Lemma getitem_store (self : t) (item : string) (child : t) (kids : gmap string t) :
  getitem (Node (geometries self) (transform self) (<[item := child]> kids)) item
  = child.
Proof. unfold getitem. simpl. by rewrite lookup_insert_eq. Qed.

Lemma getitem_store_ne (self : t) (item item' : string) (child : t) :
  item ≠ item' →
  getitem (Node (geometries self) (transform self)
                (<[item := child]> (children self))) item'
  = getitem self item'.
Proof. intros Hne. unfold getitem. simpl. by rewrite lookup_insert_ne. Qed.

(** Reading below the place a node was stored reads inside that node. *)
Lemma node_at_store (self : t) (p r : path) (node' : t) :
  node_at ((getdescendant self p).2 node') (p ++ r) = node_at node' r.
Proof.
  revert self. induction p as [|item p IH]; intros self; [done |].
  rewrite getdescendant_cons. simpl. by rewrite node_at_cons, getitem_store, IH.
Qed.

(** Reading anywhere else gives a node with the geometries and transform that
    were there before. *)
Lemma node_at_store_other (self : t) (p q : path) (node' : t) :
  ¬ p `prefix_of` q →
  geometries (node_at ((getdescendant self p).2 node') q)
    = geometries (node_at self q) ∧
  transform (node_at ((getdescendant self p).2 node') q)
    = transform (node_at self q).
Proof.
  revert self q. induction p as [|item p IH]; intros self q Hpre.
  - destruct Hpre. apply prefix_nil.
  - rewrite getdescendant_cons. simpl. destruct q as [|item' q]; [done |].
    rewrite !node_at_cons. destruct (decide (item = item')) as [<- | Hne].
    + rewrite getitem_store. apply IH. intros Hp. apply Hpre.
      by apply prefix_cons.
    + by rewrite getitem_store_ne.
Qed.

Lemma find_store (self : t) (p r : path) (node' : t) :
  find ((getdescendant self p).2 node') (p ++ r) = find node' r.
Proof.
  revert self. induction p as [|item p IH]; intros self; [done |].
  rewrite getdescendant_cons. simpl. by rewrite lookup_insert_eq; simpl.
Qed.

Lemma find_getitem (self : t) (item : string) (q : path) :
  is_Some (find (getitem self item) q) ↔ q = [] ∨ is_Some (find self (item :: q)).
Proof.
  unfold getitem. simpl. destruct (children self !! item) as [child|]; simpl.
  - split; [by right | intros [-> | ?]; [by eexists | done]].
  - split.
    + destruct q; [by left |]. rewrite find_new by done. by intros [? ?].
    + intros [-> | [? ?]]; [by eexists | done].
Qed.

(** Which nodes a tree has after a node was stored at [p]. *)
Lemma is_Some_find_store (self : t) (p q : path) (node' : t) :
  is_Some (find ((getdescendant self p).2 node') q) ↔
  (∃ r, q = p ++ r ∧ is_Some (find node' r)) ∨
  (¬ p `prefix_of` q ∧ (q `prefix_of` p ∨ is_Some (find self q))).
Proof.
  revert self q. induction p as [|item p IH]; intros self q.
  - simpl. split.
    + intros Hq. left. by exists q.
    + intros [(r & -> & Hr) | [Hpre _]]; [done |]. destruct Hpre. apply prefix_nil.
  - rewrite getdescendant_cons. simpl. destruct q as [|item' q].
    + simpl. split; [| by eauto]. intros _. right. split.
      * by intros [? ?].
      * left. apply prefix_nil.
    + simpl. destruct (decide (item = item')) as [<- | Hne].
      * rewrite lookup_insert_eq. simpl. rewrite IH. rewrite find_getitem.
        split.
        -- intros [(r & -> & Hr) | [Hpre Hq]].
           ++ left. by exists r.
           ++ right. split.
              ** intros Hp. apply Hpre. by eapply prefix_cons_inv_2.
              ** destruct Hq as [Hq | [-> | Hq]].
                 --- left. by apply prefix_cons.
                 --- left. apply prefix_cons, prefix_nil.
                 --- by right.
        -- intros [(r & Heq & Hr) | [Hpre Hq]].
           ++ left. exists r. split; [by simplify_list_eq | done].
           ++ right. split.
              ** intros Hp. apply Hpre. by apply prefix_cons.
              ** destruct Hq as [Hq | Hq].
                 --- left. by eapply prefix_cons_inv_2.
                 --- right. by right.
      * rewrite lookup_insert_ne by done. split.
        -- intros Hq. right. split; [| by right].
           intros Hp. by apply prefix_cons_inv_1 in Hp.
        -- intros [(r & Heq & _) | [_ [Hq | Hq]]].
           ++ by simplify_list_eq.
           ++ by apply prefix_cons_inv_1 in Hq.
           ++ done.
Qed.

Lemma find_app (self : t) (p r : path) :
  find self (p ++ r) = find self p ≫= λ node, find node r.
Proof.
  revert self. induction p as [|item p IH]; intros self; [done |].
  simpl. destruct (children self !! item) as [child|]; simpl; [apply IH | done].
Qed.

Lemma find_same_children (node node' : t) (item : string) (r : path) :
  children node' = children node →
  find node' (item :: r) = find node (item :: r).
Proof. intros Heq. simpl. by rewrite Heq. Qed.

(** Below a node that a read returned there is what the tree has there. *)
Lemma is_Some_find_node_at (self : t) (p : path) (item : string) (r : path) :
  is_Some (find (node_at self p) (item :: r)) ↔
  is_Some (find self (p ++ item :: r)).
Proof.
  rewrite node_at_find, find_app.
  destruct (find self p) as [node|]; simpl; [done |].
  split; by intros [? ?].
Qed.

(** An assignment to an attribute other than [children] creates the nodes on
    the way to [p] and [p] itself, and nothing else. *)
Lemma is_Some_find_assign (self : t) (p q : path) (f : t → t) :
  children (f (node_at self p)) = children (node_at self p) →
  is_Some (find (assign self p f) q) ↔ is_Some (find self q) ∨ q `prefix_of` p.
Proof.
  intros Hkids. unfold assign. rewrite is_Some_find_store. split.
  - intros [(r & -> & Hr) | [_ [Hq | Hq]]]; [| by right | by left].
    destruct r as [|item r].
    + right. by rewrite app_nil_r.
    + left. rewrite (find_same_children _ _ _ _ Hkids) in Hr.
      by apply is_Some_find_node_at.
  - intros Hq. destruct (decide (p `prefix_of` q)) as [[r ->] | Hpre].
    + left. exists r. split; [done |]. destruct r as [|item r]; [by eexists |].
      rewrite (find_same_children _ _ _ _ Hkids). apply is_Some_find_node_at.
      destruct Hq as [Hq | [r' Hr']]; [done |].
      rewrite <- app_assoc in Hr'.
      apply (f_equal base.length) in Hr'. rewrite length_app in Hr'.
      simpl in Hr'. rewrite length_app in Hr'. lia.
    + right. split; [done |]. destruct Hq; by eauto.
Qed.

Lemma is_Some_find_touch (self : t) (p q : path) :
  is_Some (find (touch self p) q) ↔ is_Some (find self q) ∨ q `prefix_of` p.
Proof. by apply (is_Some_find_assign self p q (λ node, node)). Qed.

(** The node read back where an attribute was assigned. *)
Lemma node_at_assign (self : t) (p : path) (f : t → t) :
  node_at (assign self p f) p = f (node_at self p).
Proof.
  unfold assign.
  pose proof (node_at_store self p [] (f (node_at self p))) as Hs.
  by rewrite app_nil_r in Hs.
Qed.

(** Everywhere else the geometries and the transform read are unchanged. *)
Lemma node_at_assign_other (self : t) (p q : path) (f : t → t) :
  children (f (node_at self p)) = children (node_at self p) →
  q ≠ p →
  geometries (node_at (assign self p f) q) = geometries (node_at self q) ∧
  transform (node_at (assign self p f) q) = transform (node_at self q).
Proof.
  intros Hkids Hne. destruct (decide (p `prefix_of` q)) as [[r ->] | Hpre].
  - unfold assign. rewrite node_at_store, node_at_app.
    destruct r as [|item r]; [by rewrite app_nil_r in Hne |].
    rewrite !node_at_cons. unfold getitem. by rewrite Hkids.
  - by apply node_at_store_other.
Qed.

Lemma node_at_touch (self : t) (p q : path) :
  geometries (node_at (touch self p) q) = geometries (node_at self q) ∧
  transform (node_at (touch self p) q) = transform (node_at self q).
Proof.
  destruct (decide (q = p)) as [-> | Hne].
  - unfold touch. fold (assign self p (λ node, node)).
    by rewrite node_at_assign.
  - by apply (node_at_assign_other self p q (λ node, node)).
Qed.

(** Reading an existing node leaves the tree as it is. *)
Lemma touch_present (self : t) (p : path) :
  is_Some (find self p) → touch self p = self.
Proof.
  unfold touch, node_at. revert self.
  induction p as [|item p IH]; intros self Hp; [done |].
  rewrite getdescendant_cons. simpl. simpl in Hp. unfold getitem in *.
  destruct (children self !! item) as [child|] eqn:Hchild; [| by destruct Hp].
  simpl in *. rewrite (IH child Hp). rewrite insert_id by done.
  by destruct self.
Qed.

Lemma find_prefix (self : t) (p q : path) :
  is_Some (find self q) → p `prefix_of` q → is_Some (find self p).
Proof.
  intros Hq [r ->]. rewrite find_app in Hq.
  destruct (find self p); [by eexists | by destruct Hq].
Qed.

Lemma is_Some_find_remove_child (self : t) (parent : path) (name : string) (q : path) :
  is_Some (children (node_at self parent) !! name) →
  is_Some (find (remove_child self parent name) q) ↔
  is_Some (find self q) ∧ ¬ (parent ++ [name]) `prefix_of` q.
Proof.
  intros Hchild. unfold remove_child. rewrite is_Some_find_store.
  assert (is_Some (find self parent)) as Hparent.
  { rewrite node_at_find in Hchild. destruct (find self parent); [by eexists |].
    simpl in Hchild. rewrite lookup_empty in Hchild. by destruct Hchild. }
  split.
  - intros [(r & -> & Hr) | [Hpre [Hq | Hq]]].
    + destruct r as [|item r].
      * rewrite app_nil_r. split; [done |]. intros [r' Hr'].
        apply (f_equal base.length) in Hr'. rewrite !length_app in Hr'.
        simpl in Hr'. lia.
      * simpl in Hr. destruct (decide (name = item)) as [<- | Hne].
        { rewrite lookup_delete_eq in Hr. by destruct Hr. }
        rewrite lookup_delete_ne in Hr by done. split.
        -- by apply is_Some_find_node_at.
        -- intros [r' Hr']. rewrite <- app_assoc in Hr'. by simplify_list_eq.
    + split; [by eapply find_prefix |]. intros Hp. apply Hpre.
      etrans; [| exact Hp]. by apply prefix_app_r.
    + split; [done |]. intros Hp. apply Hpre.
      etrans; [| exact Hp]. by apply prefix_app_r.
  - intros [Hq Hnot]. destruct (decide (parent `prefix_of` q)) as [[r ->] | Hpre].
    + left. exists r. split; [done |]. destruct r as [|item r]; [by eexists |].
      simpl. destruct (decide (name = item)) as [<- | Hne].
      { destruct Hnot. exists r. by rewrite <- app_assoc. }
      rewrite lookup_delete_ne by done.
      by apply (is_Some_find_node_at self parent item r).
    + right. split; [done | by right].
Qed.

Lemma node_at_remove_child (self : t) (parent : path) (name : string) (q : path) :
  ¬ (parent ++ [name]) `prefix_of` q →
  geometries (node_at (remove_child self parent name) q)
    = geometries (node_at self q) ∧
  transform (node_at (remove_child self parent name) q)
    = transform (node_at self q).
Proof.
  intros Hnot. unfold remove_child.
  destruct (decide (parent `prefix_of` q)) as [[r ->] | Hpre].
  - rewrite node_at_store, node_at_app. destruct r as [|item r]; [done |].
    rewrite !node_at_cons. unfold getitem. simpl.
    destruct (decide (name = item)) as [<- | Hne].
    + destruct Hnot. exists r. by rewrite <- app_assoc.
    + by rewrite lookup_delete_ne.
  - by apply node_at_store_other.
Qed.

End tree_facts.

(** ** Serializing and publishing the queue *)

Section core_facts.
Context `{TransformCodec}.
Import CoreVisualizer.

Lemma node_at_touch_all (tr : LazyTree.t) (ps : list path) (q : path) :
  LazyTree.geometries (LazyTree.node_at (touch_all tr ps) q)
    = LazyTree.geometries (LazyTree.node_at tr q) ∧
  LazyTree.transform (LazyTree.node_at (touch_all tr ps) q)
    = LazyTree.transform (LazyTree.node_at tr q).
Proof.
  revert tr. induction ps as [|p ps IH]; intros tr; [done |].
  simpl. destruct (IH (LazyTree.touch tr p)) as [-> ->].
  apply node_at_touch.
Qed.

Lemma is_Some_find_touch_all (tr : LazyTree.t) (ps : list path) (q : path) :
  is_Some (LazyTree.find (touch_all tr ps) q) ↔
  is_Some (LazyTree.find tr q) ∨ ∃ p, p ∈ ps ∧ q `prefix_of` p.
Proof.
  revert tr. induction ps as [|p ps IH]; intros tr; simpl.
  - split; [by left | intros [? | (? & ?%elem_of_nil & _)]; done].
  - rewrite IH, is_Some_find_touch. split.
    + intros [[Hq | Hq] | (p' & Hin & Hq)]; [by left | |].
      * right. exists p. split; [by left | done].
      * right. exists p'. split; [by right | done].
    + intros [Hq | (p' & [-> | Hin]%elem_of_cons & Hq)].
      * by left; left.
      * by left; right.
      * right. by exists p'.
Qed.

Lemma load_records_touch (tr : LazyTree.t) (p : path) (ps : list path) :
  load_records (LazyTree.touch tr p) ps = load_records tr ps.
Proof.
  unfold load_records. apply list_omap_ext, Forall2_same_length_lookup.
  split; [done |]. intros i p1 p2 Hp1 Hp2. simplify_eq.
  by destruct (node_at_touch tr p p1) as [-> _].
Qed.

Lemma draw_records_touch_all (tr : LazyTree.t) (ps' ps : list path) :
  draw_records (touch_all tr ps') ps = draw_records tr ps.
Proof.
  unfold draw_records. apply list_fmap_ext. intros i p' _.
  by destruct (node_at_touch_all tr ps' p') as [_ ->].
Qed.

Lemma set_tree_set_tree (tr tr' : LazyTree.t) (s : t) :
  set_tree tr (set_tree tr' s) = set_tree tr s.
Proof. done. Qed.

Lemma for_each_delete (acc : list json) (ps : list path) (s : t) :
  Core.for_each (λ delete p, ret (delete ++ [Core.delete_record p])) acc ps s
  = (Returned (acc ++ (Core.delete_record <$> ps)), s).
Proof.
  revert acc. induction ps as [|p ps IH]; intros acc; simpl.
  - by rewrite app_nil_r.
  - unfold mbind, core_bind, bind, ret. fold (@ret (list json)).
    rewrite IH. by rewrite <- app_assoc.
Qed.

Lemma for_each_load (acc : list json) (ps : list path) (s : t) :
  Core.for_each
    (λ load p,
       node ← Core.tree_getdescendant p;
       match LazyTree.geometries node with
       | [] => ret load
       | geoms => ret (load ++ [Core.load_record p geoms])
       end) acc ps s
  = (Returned (acc ++ load_records (tree s) ps),
     set_tree (touch_all (tree s) ps) s).
Proof.
  revert acc s. induction ps as [|p ps IH]; intros acc s.
  - simpl. rewrite app_nil_r. by destruct s.
  - cbn [Core.for_each]. unfold mbind at 1, core_bind at 1, bind at 1.
    unfold mbind at 1, core_bind at 1, bind at 1, Core.tree_getdescendant at 1.
    unfold load_records at 1. cbn [omap list_omap]. fold (load_records (tree s) ps).
    destruct (LazyTree.geometries (LazyTree.node_at (tree s) p)) eqn:Hgeoms;
      unfold ret at 1; rewrite IH; simpl; rewrite load_records_touch.
    + done.
    + by rewrite <- app_assoc.
Qed.

Lemma for_each_draw (acc : list json) (ps : list path) (s : t) :
  Core.for_each
    (λ draw p,
       node ← Core.tree_getdescendant p;
       ret (draw ++ [Core.draw_record p (LazyTree.transform node)])) acc ps s
  = (Returned (acc ++ draw_records (tree s) ps),
     set_tree (touch_all (tree s) ps) s).
Proof.
  revert acc s. induction ps as [|p ps IH]; intros acc s; simpl.
  - rewrite app_nil_r. by destruct s.
  - unfold mbind, core_bind, bind, Core.tree_getdescendant.
    unfold ret at 1. rewrite IH. simpl. rewrite <- app_assoc. simpl.
    pose proof (draw_records_touch_all (tree s) [p] ps) as Hd. simpl in Hd.
    by rewrite Hd.
Qed.

(** [serialize_queue] always returns: the dict is a function of the tree and
    the queue before it, and the tree is left with every marked path read. *)
Lemma serialize_queue_run (e : Env) (s : t) :
  Core.serialize_queue e s
  = (Returned (queue_data e (tree s) (queue s)),
     set_tree (flushed_tree (tree s) (queue s)) s).
Proof.
  unfold Core.serialize_queue, mbind, core_bind, bind, gets.
  rewrite for_each_delete, for_each_load, for_each_draw. simpl.
  unfold ret, queue_data, flushed_tree, touch_all.
  rewrite draw_records_touch_all, foldl_app. done.
Qed.

Lemma isempty_true (q : CommandQueue.t) :
  CommandQueue.isempty q = true ↔
  CommandQueue.draw q = ∅ ∧ CommandQueue.load q = ∅ ∧ CommandQueue.delete q = ∅.
Proof.
  unfold CommandQueue.isempty.
  rewrite negb_true_iff, !orb_false_iff, !negb_false_iff, !bool_decide_eq_true.
  tauto.
Qed.

Lemma isempty_false (q : CommandQueue.t) (p : path) :
  p ∈ CommandQueue.draw q ∨ p ∈ CommandQueue.load q ∨ p ∈ CommandQueue.delete q →
  CommandQueue.isempty q = false.
Proof.
  intros Hp. apply not_true_is_false. rewrite isempty_true.
  intros (Hd & Hl & Hx). rewrite Hd, Hl, Hx in Hp. set_solver.
Qed.

Lemma publish_run (e : Env) (s : t) :
  Core.publish e s =
  if CommandQueue.isempty (queue s) then (Returned tt, s)
  else if transport_up e then (Returned tt, flushed e s)
  else (Raised TransportError, set_tree (flushed_tree (tree s) (queue s)) s).
Proof.
  unfold Core.publish, mbind at 1, core_bind at 1, bind at 1, gets.
  destruct (CommandQueue.isempty (queue s)); [done |].
  unfold mbind at 1, core_bind at 1, bind at 1. rewrite serialize_queue_run.
  unfold mbind, core_bind, bind, Core.lcm_publish. simpl.
  by destruct (transport_up e).
Qed.

Lemma maybe_publish_run (e : Env) (s : t) :
  Core._maybe_publish e s =
  if publish_immediately s then Core.publish e s else (Returned tt, s).
Proof. done. Qed.

(** A flush, whether it was sent or not, changes no geometry list and no
    transform. *)
Lemma node_at_maybe_publish (e : Env) (s : t) (q : path) :
  LazyTree.geometries (LazyTree.node_at (tree (Core._maybe_publish e s).2) q)
    = LazyTree.geometries (LazyTree.node_at (tree s) q) ∧
  LazyTree.transform (LazyTree.node_at (tree (Core._maybe_publish e s).2) q)
    = LazyTree.transform (LazyTree.node_at (tree s) q).
Proof.
  rewrite maybe_publish_run, publish_run.
  destruct (publish_immediately s); [| done].
  destruct (CommandQueue.isempty (queue s)); [done |].
  destruct (transport_up e); apply node_at_touch_all.
Qed.

(** [_maybe_publish] can only fail in the transport. *)
Lemma maybe_publish_outcome (e : Env) (s : t) :
  (Core._maybe_publish e s).1 = Returned tt ∨
  (Core._maybe_publish e s).1 = Raised TransportError
    ∧ publish_immediately s = true ∧ transport_up e = false.
Proof.
  rewrite maybe_publish_run, publish_run.
  destruct (publish_immediately s); [| by left].
  destruct (CommandQueue.isempty (queue s)); [by left |].
  destruct (transport_up e); [by left | by right].
Qed.

Lemma load_run (e : Env) (p : path) (geomdata : geom_arg) (s : t) :
  Core.load e p geomdata s =
  Core._maybe_publish e
    (mark_load p
       (set_tree (LazyTree.assign (tree s) p (LazyTree.with_geometries (loaded geomdata))) s)).
Proof. by destruct geomdata as [[g | d] | items]. Qed.

Lemma draw_run (e : Env) (p : path) (tform : Matrix) (s : t) :
  Core.draw e p tform s =
  Core._maybe_publish e
    (mark_draw p (set_tree (LazyTree.assign (tree s) p (LazyTree.with_transform tform)) s)).
Proof. done. Qed.

(** *** The lists of an emitted message *)

Lemma message_list_delete (e : Env) (tr : LazyTree.t) (q : CommandQueue.t) :
  message_list "delete" (queue_message e tr q)
  = Core.delete_record <$> elements (CommandQueue.delete q).
Proof. done. Qed.

Lemma message_list_load (e : Env) (tr : LazyTree.t) (q : CommandQueue.t) :
  message_list "load" (queue_message e tr q)
  = load_records tr (elements (CommandQueue.load q)).
Proof. done. Qed.

Lemma message_list_draw (e : Env) (tr : LazyTree.t) (q : CommandQueue.t) :
  message_list "draw" (queue_message e tr q)
  = draw_records tr (elements (CommandQueue.draw q)).
Proof. done. Qed.

Lemma elem_of_load_records (tr : LazyTree.t) (ps : list path) (r : json) :
  r ∈ load_records tr ps ↔
  ∃ p, p ∈ ps ∧ LazyTree.geometries (LazyTree.node_at tr p) ≠ [] ∧
       r = Core.load_record p (LazyTree.geometries (LazyTree.node_at tr p)).
Proof.
  unfold load_records. rewrite list_elem_of_omap. split.
  - intros (p & Hp & Hr). exists p. split; [done |].
    destruct (LazyTree.geometries (LazyTree.node_at tr p)); [done |].
    split; [done | by injection Hr as <-].
  - intros (p & Hp & Hgeoms & ->). exists p. split; [done |].
    by destruct (LazyTree.geometries (LazyTree.node_at tr p)).
Qed.

Lemma elem_of_draw_records (tr : LazyTree.t) (ps : list path) (r : json) :
  r ∈ draw_records tr ps ↔
  ∃ p, p ∈ ps ∧
       r = Core.draw_record p (LazyTree.transform (LazyTree.node_at tr p)).
Proof.
  unfold draw_records. rewrite list_elem_of_fmap. split.
  - intros (p & -> & Hp). by exists p.
  - intros (p & Hp & ->). by exists p.
Qed.

Lemma json_strings_path (p : path) : json_strings (JStr <$> p) = Some p.
Proof.
  induction p as [|name p IH]; [done |].
  rewrite fmap_cons. cbn [json_strings]. by rewrite IH.
Qed.

Lemma has_path_load_record (p q : path) (geoms : list GeometryData.t) :
  has_path p (Core.load_record q geoms) = bool_decide (q = p).
Proof.
  unfold has_path, Core.load_record, json_path. simpl.
  rewrite json_strings_path. apply bool_decide_ext. naive_solver.
Qed.

Lemma has_path_draw_record (p q : path) (tform : Matrix) :
  has_path p (Core.draw_record q tform) = bool_decide (q = p).
Proof.
  unfold has_path, Core.draw_record, json_path. simpl.
  rewrite json_strings_path. apply bool_decide_ext. naive_solver.
Qed.

Lemma filter_draw_records_absent (tr : LazyTree.t) (ps : list path) (p : path) :
  p ∉ ps → filter (λ r, has_path p r = true) (draw_records tr ps) = [].
Proof.
  induction ps as [|q ps IH]; intros Hp; [done |].
  apply not_elem_of_cons in Hp as [Hne Hp]. unfold draw_records.
  rewrite fmap_cons, filter_cons_False.
  - by apply IH.
  - rewrite has_path_draw_record, bool_decide_eq_true. congruence.
Qed.

(** A path marked once is drawn by exactly one record. *)
Lemma filter_draw_records (tr : LazyTree.t) (ps : list path) (p : path) :
  NoDup ps → p ∈ ps →
  filter (λ r, has_path p r = true) (draw_records tr ps)
  = [Core.draw_record p (LazyTree.transform (LazyTree.node_at tr p))].
Proof.
  induction ps as [|q ps IH]; intros Hnd Hp; [by apply elem_of_nil in Hp |].
  apply NoDup_cons in Hnd as [Hq Hnd]. unfold draw_records.
  rewrite fmap_cons. destruct (decide (q = p)) as [-> | Hne].
  - rewrite filter_cons_True.
    + f_equal. by apply filter_draw_records_absent.
    + by rewrite has_path_draw_record, bool_decide_eq_true.
  - rewrite filter_cons_False.
    + apply IH; [done |]. apply elem_of_cons in Hp as [-> | Hp]; done.
    + by rewrite has_path_draw_record, bool_decide_eq_true.
Qed.

(** *** Deleting *)

Lemma split_last_snoc (parent : path) (name : string) :
  Core.split_last (parent ++ [name]) = Some (parent, name).
Proof.
  induction parent as [|item parent IH]; [done |].
  simpl. rewrite IH. by destruct (parent ++ [name]) eqn:Heq; [destruct parent |].
Qed.

Lemma split_last_nil_or_snoc (p : path) :
  p = [] ∨ ∃ parent name, p = parent ++ [name].
Proof.
  induction p as [|item p IH]; [by left |]. right.
  destruct IH as [-> | (parent & name & ->)].
  - by exists [], item.
  - by exists (item :: parent), name.
Qed.

Lemma is_Some_child_node_at (tr : LazyTree.t) (parent : path) (name : string) :
  is_Some (LazyTree.children (LazyTree.node_at tr parent) !! name) ↔
  is_Some (LazyTree.find tr (parent ++ [name])).
Proof.
  rewrite <- is_Some_find_node_at. simpl.
  by destruct (LazyTree.children (LazyTree.node_at tr parent) !! name).
Qed.

Lemma delete_root_run (e : Env) (s : t) :
  Core.delete e [] s
  = Core._maybe_publish e (mark_delete [] (set_tree LazyTree.new s)).
Proof. done. Qed.

(** Deleting a node that is there. *)
Lemma delete_present_run (e : Env) (parent : path) (name : string) (s : t) :
  is_Some (LazyTree.find (tree s) (parent ++ [name])) →
  Core.delete e (parent ++ [name]) s
  = Core._maybe_publish e
      (mark_delete (parent ++ [name])
         (set_tree (LazyTree.remove_child (tree s) parent name) s)).
Proof.
  intros Hfind. unfold Core.delete. rewrite split_last_snoc.
  unfold mbind at 1, core_bind at 1, bind at 1.
  unfold mbind at 1, core_bind at 1, bind at 1, Core.tree_getdescendant.
  pose proof Hfind as Hchild. apply is_Some_child_node_at in Hchild as [child Hchild].
  rewrite Hchild. unfold modify at 1. unfold mbind, core_bind, bind, modify at 1.
  simpl. rewrite touch_present; [done |].
  eapply find_prefix; [done |]. by apply prefix_app_r.
Qed.

(** Deleting a node that is not there raises [KeyError], after the nodes on
    the way to its parent were created. *)
Lemma delete_absent_run (e : Env) (parent : path) (name : string) (s : t) :
  LazyTree.find (tree s) (parent ++ [name]) = None →
  Core.delete e (parent ++ [name]) s
  = (Raised (KeyError name), set_tree (LazyTree.touch (tree s) parent) s).
Proof.
  intros Hfind. unfold Core.delete. rewrite split_last_snoc.
  unfold mbind at 1, core_bind at 1, bind at 1.
  unfold mbind at 1, core_bind at 1, bind at 1, Core.tree_getdescendant.
  destruct (LazyTree.children (LazyTree.node_at (tree s) parent) !! name)
    as [child|] eqn:Hchild; [| done].
  assert (is_Some (LazyTree.find (tree s) (parent ++ [name]))) as [? ?].
  { apply is_Some_child_node_at. by eexists. }
  congruence.
Qed.

(** *** Sequences of calls *)

Lemma is_Some_find_flushed_tree (tr : LazyTree.t) (q : CommandQueue.t) (p : path) :
  (∀ p', p' ∈ CommandQueue.load q ∨ p' ∈ CommandQueue.draw q →
         is_Some (LazyTree.find tr p')) →
  is_Some (LazyTree.find (flushed_tree tr q) p) ↔ is_Some (LazyTree.find tr p).
Proof.
  intros Hmarks. unfold flushed_tree. rewrite is_Some_find_touch_all.
  split; [| by left]. intros [Hp | (p' & Hp' & Hpre)]; [done |].
  eapply find_prefix; [| done]. apply Hmarks.
  by rewrite elem_of_app, !elem_of_elements in Hp'.
Qed.

(** A [_maybe_publish] that returns, when every marked path has its node:
    the tree has the same nodes, and nothing is left pending in immediate
    mode. *)
Lemma maybe_publish_settles (e : Env) (s s1 : t) :
  (publish_immediately s = true →
   ∀ p', p' ∈ CommandQueue.load (queue s) ∨ p' ∈ CommandQueue.draw (queue s) →
         is_Some (LazyTree.find (tree s) p')) →
  Core._maybe_publish e s = (Returned tt, s1) →
  settled s1 ∧
  ∀ q, is_Some (LazyTree.find (tree s1) q) ↔ is_Some (LazyTree.find (tree s) q).
Proof.
  intros Hmarks. rewrite maybe_publish_run, publish_run. unfold settled.
  destruct (publish_immediately s) eqn:Hnow.
  - destruct (CommandQueue.isempty (queue s)) eqn:Hempty.
    + intros [= <-]. by split.
    + destruct (transport_up e); [| done]. intros [= <-]. split; [done |].
      intros q. simpl. apply is_Some_find_flushed_tree. by apply Hmarks.
  - intros [= <-]. split; [by rewrite Hnow | done].
Qed.

Lemma settled_marks (s : t) (p : path) :
  settled s → publish_immediately s = true →
  (p ∈ CommandQueue.load (queue s) ∨ p ∈ CommandQueue.draw (queue s)) → False.
Proof.
  intros Hs Hnow Hp. apply Hs in Hnow. apply isempty_true in Hnow as (Hd & Hl & _).
  rewrite Hd, Hl in Hp. set_solver.
Qed.

(** What one call that returns does to the set of nodes. *)
Lemma run_call_descendants (e : Env) (k : call) (s s1 : t) :
  settled s →
  run_call e k s = (Returned tt, s1) →
  settled s1 ∧
  ∀ q, q ∈ LazyTree.descendants (tree s1) [] ↔
       match k with
       | Load p _ | Draw p _ =>
           q ∈ LazyTree.descendants (tree s) [] ∨ (q ≠ [] ∧ q `prefix_of` p)
       | Delete d =>
           q ∈ LazyTree.descendants (tree s) [] ∧ ¬ d `prefix_of` q
       end.
Proof.
  intros Hs. destruct k as [p geomdata | p tform | d]; simpl.
  - rewrite load_run. intros Hrun.
    apply maybe_publish_settles in Hrun as [Hs1 Hfind].
    + split; [done |]. intros q. rewrite !elem_of_descendants_root, Hfind.
      simpl. rewrite is_Some_find_assign by done. tauto.
    + simpl. intros Hnow p' [[->%elem_of_singleton | Hp']%elem_of_union | Hp'].
      * apply is_Some_find_assign; [done | by right].
      * destruct (settled_marks s p' Hs Hnow). by left.
      * destruct (settled_marks s p' Hs Hnow). by right.
  - rewrite draw_run. intros Hrun.
    apply maybe_publish_settles in Hrun as [Hs1 Hfind].
    + split; [done |]. intros q. rewrite !elem_of_descendants_root, Hfind.
      simpl. rewrite is_Some_find_assign by done. tauto.
    + simpl. intros Hnow p' [Hp' | [->%elem_of_singleton | Hp']%elem_of_union].
      * destruct (settled_marks s p' Hs Hnow). by left.
      * apply is_Some_find_assign; [done | by right].
      * destruct (settled_marks s p' Hs Hnow). by right.
  - destruct (split_last_nil_or_snoc d) as [-> | (parent & name & ->)].
    + rewrite delete_root_run. intros Hrun.
      apply maybe_publish_settles in Hrun as [Hs1 Hfind].
      * split; [done |]. intros q. rewrite !elem_of_descendants_root, Hfind.
        simpl. split.
        -- intros [Hq [node Hnode]]. destruct q; [done |].
           simpl in Hnode. by rewrite lookup_empty in Hnode.
        -- intros [_ Hq]. destruct Hq. apply prefix_nil.
      * simpl. intros Hnow p' Hp'. by destruct (settled_marks s p' Hs Hnow).
    + destruct (LazyTree.find (tree s) (parent ++ [name])) as [node|] eqn:Hnode.
      * rewrite delete_present_run by by rewrite Hnode. intros Hrun.
        apply maybe_publish_settles in Hrun as [Hs1 Hfind].
        -- split; [done |]. intros q. rewrite !elem_of_descendants_root, Hfind.
           simpl. rewrite is_Some_find_remove_child; [tauto |].
           apply is_Some_child_node_at. by rewrite Hnode.
        -- simpl. intros Hnow p' Hp'. by destruct (settled_marks s p' Hs Hnow).
      * by rewrite delete_absent_run.
Qed.

Lemma reached_alive_nil (q : path) : ¬ reached_alive [] q.
Proof. intros (before & k & after & p & Heq & _). by destruct before. Qed.

Lemma reached_alive_cons (k : call) (ks : list call) (q : path) :
  reached_alive (k :: ks) q ↔
  (∃ p, target k = Some p ∧ q ≠ [] ∧ q `prefix_of` p ∧
        ∀ k', k' ∈ ks → ¬ deletes k' q) ∨
  reached_alive ks q.
Proof.
  split.
  - intros (before & k0 & after & p & Heq & Htarget & Hq & Hpre & Hlater).
    destruct before as [|k1 before]; simplify_list_eq.
    + left. by exists p.
    + right. by exists before, k0, after, p.
  - intros [(p & Htarget & Hq & Hpre & Hlater)
           | (before & k0 & after & p & -> & Htarget & Hq & Hpre & Hlater)].
    + by exists [], k, ks, p.
    + by exists (k :: before), k0, after, p.
Qed.

(** The nodes after a sequence of calls that all return, from any state in
    which nothing is pending in immediate mode. *)
Lemma run_calls_descendants (ks : list (Env * call)) (s s' : t) :
  settled s →
  run_calls ks s = (Returned tt, s') →
  ∀ q, q ∈ LazyTree.descendants (tree s') [] ↔
       (q ∈ LazyTree.descendants (tree s) [] ∧
        ∀ k, k ∈ ks.*2 → ¬ deletes k q) ∨
       reached_alive (ks.*2) q.
Proof.
  revert s. induction ks as [|[e k] ks IH]; intros s Hs Hrun q.
  - injection Hrun as <-. simpl. split.
    + intros Hq. left. split; [done |]. by intros k ?%elem_of_nil.
    + intros [[Hq _] | Hq]; [done |]. by apply reached_alive_nil in Hq.
  - simpl in Hrun. unfold mbind, core_bind, bind in Hrun.
    destruct (run_call e k s) as [[[] | exn] s1] eqn:Hcall; [| done].
    destruct (run_call_descendants e k s s1 Hs Hcall) as [Hs1 Hstep].
    rewrite (IH s1 Hs1 Hrun q), Hstep. rewrite fmap_cons. simpl.
    rewrite reached_alive_cons.
    assert ((∀ k', k' ∈ k :: ks.*2 → ¬ deletes k' q) ↔
            ¬ deletes k q ∧ ∀ k', k' ∈ ks.*2 → ¬ deletes k' q) as ->.
    { split.
      - intros Hall. split; [apply Hall; by left |].
        intros k' Hk'. apply Hall. by right.
      - intros [Hk Hall] k' [-> | Hk']%elem_of_cons; [done | by apply Hall]. }
    destruct k as [p geomdata | p tform | d]; simpl.
    + split.
      * intros [[[Hq | [Hq Hpre]] Hlater] | Hq].
        -- left. by auto.
        -- right. left. by exists p.
        -- right. by right.
      * intros [[Hq [_ Hlater]] | [(p' & [= <-] & Hq & Hpre & Hlater) | Hq]].
        -- left. by auto.
        -- left. by auto.
        -- by right.
    + split.
      * intros [[[Hq | [Hq Hpre]] Hlater] | Hq].
        -- left. by auto.
        -- right. left. by exists p.
        -- right. by right.
      * intros [[Hq [_ Hlater]] | [(p' & [= <-] & Hq & Hpre & Hlater) | Hq]].
        -- left. by auto.
        -- left. by auto.
        -- by right.
    + split.
      * intros [[[Hq Hd] Hlater] | Hq]; [left; by auto | right; by right].
      * intros [[Hq [Hd Hlater]] | [(p' & [=] & _) | Hq]];
          [left; by auto | by right].
Qed.

(** *** The response handler *)

Lemma for_each_mark (ps : list path) (s : t) :
  Core.for_each (λ _ p, modify (mark_load p) ;; modify (mark_draw p)) tt ps s
  = (Returned tt, mark_all ps s).
Proof.
  revert s. induction ps as [|p ps IH]; intros s.
  - simpl. unfold ret, mark_all, set_queue. destruct s as [l tr [d lo de] b].
    simpl. by rewrite !(left_id_L ∅ (∪)).
  - change (Core.for_each
              (λ _ p, modify (mark_load p) ;; modify (mark_draw p)) tt ps
              (mark_draw p (mark_load p s))
            = (Returned tt, mark_all (p :: ps) s)).
    rewrite IH. unfold mark_all, mark_draw, mark_load, set_queue. simpl.
    do 2 f_equal. f_equal; set_solver.
Qed.

Lemma handle_response_ack (fields : list (string * json)) (status : json) (s : t) :
  dict_get "status" fields = Some status →
  py_eq_num status 0 = true →
  Core._handle_response (JObj fields) s = (Returned tt, s).
Proof. intros Hstatus H0. unfold Core._handle_response. by rewrite Hstatus, H0. Qed.

Lemma handle_response_resync (fields : list (string * json)) (status : json) (s : t) :
  dict_get "status" fields = Some status →
  py_eq_num status 0 = false →
  py_eq_num status 1 = true →
  Core._handle_response (JObj fields) s
  = (Returned tt, mark_all (LazyTree.descendants (tree s) []) s).
Proof.
  intros Hstatus H0 H1. unfold Core._handle_response.
  rewrite Hstatus, H0, H1. unfold mbind, core_bind, bind, gets.
  apply for_each_mark.
Qed.

End core_facts.

(** * The claims *)

Section claims.
Context `{TransformCodec}.
Import CoreVisualizer.

(** C2 (as the code has it).  [publish] on a non-empty queue clears the
    three sets only after the transport took the message.  When the send
    returns, the call returns, the message is the last one sent and the three
    sets are empty.  When the send raises, [publish] raises the same failure,
    nothing was sent and the queue is the one before the call: it still
    holds every mark. *)
Theorem publish_clears_after_send (e : Env) (s : t) :
  CommandQueue.isempty (queue s) = false →
  (transport_up e = true →
     (Core.publish e s).1 = Returned tt ∧
     lcm (Core.publish e s).2
       = lcm s ++ [(request_channel, queue_message e (tree s) (queue s))] ∧
     CommandQueue.draw (queue (Core.publish e s).2) = ∅ ∧
     CommandQueue.load (queue (Core.publish e s).2) = ∅ ∧
     CommandQueue.delete (queue (Core.publish e s).2) = ∅) ∧
  (transport_up e = false →
     (Core.publish e s).1 = Raised TransportError ∧
     lcm (Core.publish e s).2 = lcm s ∧
     queue (Core.publish e s).2 = queue s).
Proof.
  intros Hq. rewrite publish_run, Hq.
  split; intros ->; simpl; by repeat split.
Qed.

(** C5.  A response whose status is neither 0 nor 1 makes [_handle_response]
    raise [ValueError], and the state (tree, queue, transport) is exactly the
    one before the call. *)
Theorem handle_response_unknown_status
    (fields : list (string * json)) (status : json) (s : t) :
  dict_get "status" fields = Some status →
  py_eq_num status 0 = false →
  py_eq_num status 1 = false →
  Core._handle_response (JObj fields) s
  = (Raised (ValueError "Unhandles response from viewer"), s).
Proof.
  intros Hstatus H0 H1. unfold Core._handle_response.
  by rewrite Hstatus, H0, H1.
Qed.

(** C7.  [draw(p, T)] then [load(p, G)]: the node at [p] holds the geometry
    list made from [G] and still has transform [T].  This holds in both
    publish modes and whatever the transport does in the two calls. *)
Theorem load_keeps_transform
    (e1 e2 : Env) (p : path) (T : Matrix) (G : geom_arg) (s : t) :
  let s1 := (Core.draw e1 p T s).2 in
  let s2 := (Core.load e2 p G s1).2 in
  LazyTree.transform (LazyTree.node_at (tree s2) p) = T ∧
  LazyTree.geometries (LazyTree.node_at (tree s2) p) = loaded G.
Proof.
  simpl. rewrite load_run, draw_run.
  match goal with
  | |- context [Core._maybe_publish e2 ?s'] =>
      destruct (node_at_maybe_publish e2 s' p) as [-> ->]
  end.
  simpl. rewrite node_at_assign. simpl. split; [| done].
  match goal with
  | |- context [Core._maybe_publish e1 ?s'] =>
      destruct (node_at_maybe_publish e1 s' p) as [_ ->]
  end.
  simpl. by rewrite node_at_assign.
Qed.

(** C6 (as the code has it).  In batch mode ([publish_immediately] off, so
    that the two draws are flushed by one publish), [draw(p, A)],
    [draw(p, B)] and one [publish] whose send returns: both draws return, one
    message is sent, and its draw list has exactly one record for [p], which
    carries the encoding of [B]. *)
Theorem draws_coalesce
    (e1 e2 e3 : Env) (p : path) (A B : Matrix) (s : t) :
  publish_immediately s = false →
  transport_up e3 = true →
  let r1 := Core.draw e1 p A s in
  let r2 := Core.draw e2 p B r1.2 in
  let r3 := Core.publish e3 r2.2 in
  r1.1 = Returned tt ∧ r2.1 = Returned tt ∧ r3.1 = Returned tt ∧
  ∃ msg,
    lcm r3.2 = lcm s ++ [(request_channel, msg)] ∧
    filter (λ r, has_path p r = true) (message_list "draw" msg)
    = [JObj [ ("path", json_path p); ("transform", serialize_transform B) ]].
Proof.
  intros Hbatch Hup. simpl. rewrite !draw_run, !maybe_publish_run.
  simpl. rewrite Hbatch. simpl. rewrite Hbatch. simpl.
  rewrite publish_run, Hup.
  rewrite (isempty_false _ p) by (left; simpl; set_solver).
  simpl. repeat split. eexists. split; [done |].
  rewrite message_list_draw, filter_draw_records.
  - by rewrite node_at_assign.
  - apply NoDup_elements.
  - apply elem_of_elements. simpl. set_solver.
Qed.


(** C10.  [serialize_queue] writes to the tree.  A path that is marked for
    load or draw and has no node is given one: afterwards it is among the
    descendants of the root, with an empty geometry list and the identity
    transform; and when it is marked for draw the returned dict has a draw
    record for it that carries the encoding of the identity. *)
Theorem serialize_queue_creates_nodes (e : Env) (s : t) (p : path) :
  p ∈ CommandQueue.load (queue s) ∨ p ∈ CommandQueue.draw (queue s) →
  p ≠ [] →
  p ∉ LazyTree.descendants (tree s) [] →
  let r := Core.serialize_queue e s in
  ∃ fields draws,
    r.1 = Returned (JObj fields) ∧
    p ∈ LazyTree.descendants (tree r.2) [] ∧
    LazyTree.geometries (LazyTree.node_at (tree r.2) p) = [] ∧
    LazyTree.transform (LazyTree.node_at (tree r.2) p) = eye4 ∧
    dict_get "draw" fields = Some (JArr draws) ∧
    (p ∈ CommandQueue.draw (queue s) →
       JObj [ ("path", json_path p); ("transform", serialize_transform eye4) ]
       ∈ draws).
Proof.
  intros Hmark Hp Hdesc. simpl. rewrite serialize_queue_run. simpl.
  assert (LazyTree.node_at (tree s) p = LazyTree.new) as Hnew.
  { rewrite node_at_find. rewrite elem_of_descendants_root in Hdesc.
    destruct (LazyTree.find (tree s) p) as [node|] eqn:Hfind; [| done].
    destruct Hdesc. by eauto. }
  eexists _, _. split; [done |].
  destruct (node_at_touch_all (tree s)
              (elements (CommandQueue.load (queue s))
               ++ elements (CommandQueue.draw (queue s))) p) as [Hg Ht].
  unfold flushed_tree. rewrite Hg, Ht, Hnew.
  repeat split; try done.
  - apply elem_of_descendants_root. split; [done |].
    apply is_Some_find_touch_all. right. exists p. split; [| done].
    rewrite elem_of_app, !elem_of_elements. tauto.
  - intros Hdraw. apply elem_of_draw_records. exists p.
    rewrite elem_of_elements, Hnew. done.
Qed.

(** C4 (as the code has it).  A response with status 0 changes nothing.  A
    response with status 1 adds every descendant path of the tree to the load
    set and to the draw set, and changes nothing else.  The next publish (its
    send returning) then emits, for every path [p] that was in the tree, a
    draw record with the encoding of its transform, and a load record with
    its serialized geometries when the node holds a non-empty geometry list;
    a node without geometry gets no load record. *)
Theorem handle_response_resyncs
    (fields : list (string * json)) (status : json) (s : t) :
  dict_get "status" fields = Some status →
  (py_eq_num status 0 = true →
     Core._handle_response (JObj fields) s = (Returned tt, s)) ∧
  (py_eq_num status 0 = false → py_eq_num status 1 = true →
     let r := Core._handle_response (JObj fields) s in
     r.1 = Returned tt ∧
     tree r.2 = tree s ∧ lcm r.2 = lcm s ∧
     publish_immediately r.2 = publish_immediately s ∧
     CommandQueue.delete (queue r.2) = CommandQueue.delete (queue s) ∧
     (∀ p, p ∈ CommandQueue.load (queue r.2) ↔
           p ∈ LazyTree.descendants (tree s) [] ∨ p ∈ CommandQueue.load (queue s)) ∧
     (∀ p, p ∈ CommandQueue.draw (queue r.2) ↔
           p ∈ LazyTree.descendants (tree s) [] ∨ p ∈ CommandQueue.draw (queue s)) ∧
     ∀ e p,
       transport_up e = true →
       p ∈ LazyTree.descendants (tree s) [] →
       let node := LazyTree.node_at (tree s) p in
       (Core.publish e r.2).1 = Returned tt ∧
       ∃ msg,
         lcm (Core.publish e r.2).2 = lcm s ++ [(request_channel, msg)] ∧
         JObj [ ("path", json_path p);
                ("transform", serialize_transform (LazyTree.transform node)) ]
           ∈ message_list "draw" msg ∧
         (LazyTree.geometries node ≠ [] →
            JObj [ ("path", json_path p);
                   ("geometries",
                    JArr (GeometryData.serialize <$> LazyTree.geometries node)) ]
              ∈ message_list "load" msg) ∧
         (LazyTree.geometries node = [] →
            ∀ rec, rec ∈ message_list "load" msg → has_path p rec = false)).
Proof.
  intros Hstatus. split; [by apply handle_response_ack |].
  intros H0 H1. simpl. rewrite (handle_response_resync _ _ _ Hstatus H0 H1).
  simpl. do 5 (split; [done |]).
  split; [intros p; rewrite elem_of_union, elem_of_list_to_set; tauto |].
  split; [intros p; rewrite elem_of_union, elem_of_list_to_set; tauto |].
  intros e p Hup Hp. rewrite publish_run, Hup.
  rewrite (isempty_false _ p) by (left; simpl; set_solver). simpl.
  split; [done |]. eexists. split; [done |].
  rewrite message_list_draw, message_list_load. simpl.
  split; [| split].
  - apply elem_of_draw_records. exists p. split; [| done].
    apply elem_of_elements. set_solver.
  - intros Hgeoms. apply elem_of_load_records. exists p.
    split; [| done]. apply elem_of_elements. set_solver.
  - intros Hgeoms rec (p' & _ & Hp' & ->)%elem_of_load_records.
    rewrite has_path_load_record. apply bool_decide_eq_false. congruence.
Qed.

(** C3 (as the code has it).  [delete] of the empty path replaces the tree
    with a fresh one; [delete] of a path that has a node removes that child
    from the children of its parent: the path and every path below it leave
    the tree, every other node stays, with its geometries and transform.  In
    both cases the path is marked for delete and the call goes on to
    [_maybe_publish]: it returns, unless an immediate publish fails in the
    transport. *)
Theorem delete_removes_subtree (e : Env) (p : path) (s : t) :
  p = [] ∨ p ∈ LazyTree.descendants (tree s) [] →
  ∃ s1,
    Core.delete e p s = Core._maybe_publish e s1 ∧
    lcm s1 = lcm s ∧ publish_immediately s1 = publish_immediately s ∧
    CommandQueue.draw (queue s1) = CommandQueue.draw (queue s) ∧
    CommandQueue.load (queue s1) = CommandQueue.load (queue s) ∧
    CommandQueue.delete (queue s1) = {[ p ]} ∪ CommandQueue.delete (queue s) ∧
    (p = [] → tree s1 = LazyTree.new) ∧
    (∀ parent name, p = parent ++ [name] →
       let node := LazyTree.node_at (tree s) parent in
       LazyTree.node_at (tree s1) parent
       = LazyTree.Node (LazyTree.geometries node) (LazyTree.transform node)
                       (base.delete name (LazyTree.children node))) ∧
    (∀ q, q ∈ LazyTree.descendants (tree s1) [] ↔
          q ∈ LazyTree.descendants (tree s) [] ∧ ¬ p `prefix_of` q) ∧
    (∀ q, ¬ p `prefix_of` q →
          LazyTree.geometries (LazyTree.node_at (tree s1) q)
            = LazyTree.geometries (LazyTree.node_at (tree s) q) ∧
          LazyTree.transform (LazyTree.node_at (tree s1) q)
            = LazyTree.transform (LazyTree.node_at (tree s) q)) ∧
    ((Core.delete e p s).1 = Returned tt ∨
     (Core.delete e p s).1 = Raised TransportError
       ∧ publish_immediately s = true ∧ transport_up e = false).
Proof.
  intros Hp. destruct (split_last_nil_or_snoc p) as [-> | (parent & name & ->)].
  - exists (mark_delete [] (set_tree LazyTree.new s)).
    rewrite delete_root_run. do 7 (split; [done |]).
    split; [intros parent name Heq; by destruct parent |].
    split; [| split].
    + intros q. split; [by intros ?%elem_of_nil |].
      intros [_ Hq]. destruct Hq. apply prefix_nil.
    + intros q Hq. destruct Hq. apply prefix_nil.
    + match goal with
      | |- context [Core._maybe_publish e ?s1] =>
          exact (maybe_publish_outcome e s1)
      end.
  - destruct Hp as [Hp | Hp]; [by destruct parent |].
    apply elem_of_descendants_root in Hp as [_ Hfind].
    exists (mark_delete (parent ++ [name])
              (set_tree (LazyTree.remove_child (tree s) parent name) s)).
    rewrite delete_present_run by done. do 6 (split; [done |]).
    split; [intros Heq; by destruct parent |].
    split; [| split; [| split]].
    + intros parent' name' Heq. apply app_inj_tail in Heq as [<- <-]. simpl.
      unfold LazyTree.remove_child.
      pose proof (node_at_store (tree s) parent []) as Hs.
      rewrite app_nil_r in Hs. by rewrite Hs.
    + intros q. simpl. rewrite !elem_of_descendants_root.
      rewrite is_Some_find_remove_child by by apply is_Some_child_node_at.
      tauto.
    + intros q Hq. simpl. by apply node_at_remove_child.
    + match goal with
      | |- context [Core._maybe_publish e ?s1] =>
          exact (maybe_publish_outcome e s1)
      end.
Qed.

(** C1 (as the code has it).  From a fresh [CoreVisualizer], in either publish
    mode, after a sequence of load, draw and delete calls that all return,
    the descendants of the root are exactly the non-empty paths that lie on
    the way to, or are, the target of a load or a draw and that no later
    delete removed, directly or through an ancestor.  A load or draw creates
    every node on the way to its target, not only the target. *)
Theorem descendants_after_calls
    (immediately : bool) (ks : list (Env * call)) (s' : t) :
  run_calls ks (Build [] LazyTree.new CommandQueue.new immediately)
    = (Returned tt, s') →
  ∀ q, q ∈ LazyTree.descendants (tree s') [] ↔ reached_alive (ks.*2) q.
Proof.
  intros Hrun q.
  assert (settled (Build [] LazyTree.new CommandQueue.new immediately)) as Hs.
  { intros _. by apply isempty_true. }
  rewrite (run_calls_descendants ks _ s' Hs Hrun).
  split; [| by right]. intros [[Hq _] | Hq]; [| done].
  by apply elem_of_nil in Hq.
Qed.

(** C9.  On a fresh [CoreVisualizer], in either publish mode,
    [Visualizer("/a/b").load(Box([1, 1, 1]))] followed by [publish()], with
    the transport taking what is sent: exactly one message goes out, and its
    load list is one record with path ["a", "b"] and one geometry, of type
    "box", lengths [1, 1, 1], color [1, 1, 1, 1] and the encoding of the
    identity as transform, which is translation [0, 0, 0] and quaternion
    [1, 0, 0, 0] for a codec that maps the identity to these. *)
Theorem load_box_message (immediately : bool) (t1 t2 : Z) :
  translation_from_matrix eye4 = [0; 0; 0]%Q →
  quaternion_from_matrix eye4 = [1; 0; 0; 0]%Q →
  let vis := Visualizer.new (PathStr "/a/b") in
  let s0 := Build [] LazyTree.new CommandQueue.new immediately in
  let r1 := Visualizer.load (up t1) vis (Single (AsGeometry (Box [1; 1; 1]%Q))) s0 in
  let r2 := Core.publish (up t2) r1.2 in
  r1.1 = Returned tt ∧ r2.1 = Returned tt ∧
  ∃ msg,
    lcm r2.2 = [(request_channel, msg)] ∧
    message_list "load" msg =
    [ JObj [ ("path", JArr [JStr "a"; JStr "b"]);
             ("geometries",
              JArr [ JObj [ ("type", JStr "box");
                            ("lengths", JArr [JNum 1; JNum 1; JNum 1]);
                            ("color", JArr [JNum 1; JNum 1; JNum 1; JNum 1]);
                            ("transform",
                             JObj [ ("translation",
                                     JArr [JNum 0; JNum 0; JNum 0]);
                                    ("quaternion",
                                     JArr [JNum 1; JNum 0; JNum 0; JNum 0]) ]) ] ]) ] ].
Proof.
  intros Htranslation Hquaternion. cbv zeta.
  unfold Visualizer.load.
  assert (Visualizer.path (Visualizer.new (PathStr "/a/b")) = ["a"; "b"]) as ->
    by done.
  rewrite load_run, maybe_publish_run.
  assert (∀ tr : LazyTree.t,
    LazyTree.node_at tr ["a"; "b"]
      = LazyTree.with_geometries (loaded (Single (AsGeometry (Box [1; 1; 1]%Q)))) LazyTree.new →
    load_records tr [["a"; "b"]] =
    [ JObj [ ("path", JArr [JStr "a"; JStr "b"]);
             ("geometries",
              JArr [ JObj [ ("type", JStr "box");
                            ("lengths", JArr [JNum 1; JNum 1; JNum 1]);
                            ("color", JArr [JNum 1; JNum 1; JNum 1; JNum 1]);
                            ("transform",
                             JObj [ ("translation",
                                     JArr [JNum 0; JNum 0; JNum 0]);
                                    ("quaternion",
                                     JArr [JNum 1; JNum 0; JNum 0; JNum 0]) ]) ] ]) ] ])
    as Hrecord.
  { intros tr Hnode. unfold load_records. simpl. rewrite Hnode. simpl.
    unfold Core.load_record, GeometryData.serialize, serialize_transform. simpl.
    by rewrite Htranslation, Hquaternion. }
  assert (elements ({[ ["a"; "b"] ]} ∪ ∅ : gset path) = [["a"; "b"]]) as Helements.
  { by rewrite (right_id_L ∅ (∪)), elements_singleton. }
  destruct immediately; rewrite !publish_run; simpl.
  - split; [done |]. split; [done |]. eexists. split; [done |].
    rewrite message_list_load. simpl. rewrite Helements. apply Hrecord.
    by rewrite node_at_assign.
  - split; [done |]. split; [done |]. eexists. split; [done |].
    rewrite message_list_load. simpl. rewrite Helements. apply Hrecord.
    by rewrite node_at_assign.
Qed.

End claims.

(** * Further properties of the code *)

(** ** The lazy tree *)

Section tree_more.
Import LazyTree.

Lemma descendants_below (self : t) (prefix p : path) :
  p ∈ descendants self prefix → ∃ item q, p = prefix ++ item :: q.
Proof.
  intros (q & Hq & -> & _)%elem_of_descendants.
  destruct q as [|item q]; [done | by eauto].
Qed.

(** The result of [descendants] has no duplicates. *)
Lemma descendants_no_duplicates (self : t) (prefix : path) :
  NoDup (descendants self prefix).
Proof.
  revert prefix. induction self as [self IH] using tree_children_ind.
  intros prefix. rewrite descendants_unfold.
  pose proof (NoDup_fst_map_to_list (children self)) as Hkeys.
  assert (∀ kv, kv ∈ map_to_list (children self) →
                children self !! kv.1 = Some kv.2) as Hin.
  { intros [k v] Hkv. by apply elem_of_map_to_list. }
  revert Hkeys Hin. generalize (map_to_list (children self)). intros l.
  induction l as [|[k v] l IHl]; intros Hkeys Hin; simpl; [constructor |].
  apply NoDup_cons in Hkeys as [Hk Hkeys].
  assert (∀ x, x ∈ foldr (λ kv result,
                 result ++ (prefix ++ [kv.1])
                   :: descendants kv.2 (prefix ++ [kv.1])) [] l →
               ∃ k' q, k' ∈ l.*1 ∧ x = prefix ++ k' :: q) as Hshape.
  { clear -l. induction l as [|[k' v'] l IHl']; simpl.
    - by intros x ?%elem_of_nil.
    - intros x [Hx | [-> | Hx]%elem_of_cons]%elem_of_app.
      + destruct (IHl' x Hx) as (k'' & q & Hk'' & ->).
        exists k'', q. split; [by right | done].
      + exists k', []. split; [by left | done].
      + apply descendants_below in Hx as (item & q & ->).
        exists k', (item :: q). split; [by left |].
        by rewrite <- app_assoc. }
  apply NoDup_app. split; [| split].
  - apply IHl; [done |]. intros kv Hkv. apply Hin. by right.
  - intros x Hx Hx'. apply Hshape in Hx as (k' & q & Hk' & ->).
    apply elem_of_cons in Hx' as [Hx' | Hx'].
    + apply app_inv_head in Hx'. injection Hx' as -> _. done.
    + apply descendants_below in Hx' as (item & q' & Hx').
      rewrite <- app_assoc in Hx'. apply app_inv_head in Hx'.
      injection Hx' as -> _. done.
  - apply NoDup_cons. split.
    + intros (item & q & Hx)%descendants_below.
      rewrite <- app_assoc in Hx. apply app_inv_head in Hx. done.
    + apply (IH k v). apply (Hin (k, v)). by left.
Qed.

(** X1.  [descendants] lists every node of the tree but the root, each one
    exactly once: a path is in the result if and only if it is the prefix
    followed by a non-empty path at which the tree has a node, and the
    result has no duplicates; for every tree and prefix. *)
Theorem descendants_each_node_once (self : t) (prefix : path) :
  (∀ q, q ≠ [] → is_Some (find self q) → prefix ++ q ∈ descendants self prefix) ∧
  (∀ p, p ∈ descendants self prefix →
        ∃ q, q ≠ [] ∧ p = prefix ++ q ∧ is_Some (find self q)) ∧
  NoDup (descendants self prefix).
Proof.
  split; [| split].
  - intros q Hq Hfind. apply elem_of_descendants. by exists q.
  - intros p Hp. by apply elem_of_descendants.
  - apply descendants_no_duplicates.
Qed.

(** X2.  The result of [descendants] is closed under non-empty prefixes: when
    a path is listed, every node on the way to it is listed too. *)
Theorem descendants_prefix_closed (self : t) (p q : path) :
  p ∈ descendants self [] → q ≠ [] → q `prefix_of` p →
  q ∈ descendants self [].
Proof.
  rewrite !elem_of_descendants_root. intros [_ Hp] Hq Hpre.
  split; [done |]. by eapply find_prefix.
Qed.

(** X3.  The [prefix] argument of [descendants] only shifts the result: the
    paths listed below [prefix] are the paths listed from the empty prefix,
    each with [prefix] in front. *)
Theorem descendants_shift (self : t) (prefix p : path) :
  p ∈ descendants self prefix ↔
  ∃ q, q ∈ descendants self [] ∧ p = prefix ++ q.
Proof.
  rewrite elem_of_descendants. setoid_rewrite elem_of_descendants_root.
  split.
  - intros (q & Hq & -> & Hfind). by exists q.
  - intros (q & [Hq Hfind] & ->). by exists q.
Qed.

(** X4.  What a read [self.getdescendant(p)] does to the tree.  The tree it
    leaves has the nodes it had and the nodes on the way to [p], [p]
    included; a path that already has a node is read without any change, and
    is returned as it is in the tree; a path without a node is returned as a
    fresh node. *)
Theorem getdescendant_creates_path (self : t) (p : path) :
  (∀ q, q ∈ descendants (touch self p) [] ↔
        q ∈ descendants self [] ∨ (q ≠ [] ∧ q `prefix_of` p)) ∧
  (p = [] ∨ p ∈ descendants self [] →
     touch self p = self ∧ find self p = Some (node_at self p)) ∧
  (p ≠ [] → p ∉ descendants self [] → node_at self p = new) ∧
  touch (touch self p) p = touch self p.
Proof.
  assert (∀ tr, is_Some (find tr p) →
                touch tr p = tr ∧ find tr p = Some (node_at tr p)) as Hthere.
  { intros tr Hfind. split; [by apply touch_present |].
    rewrite node_at_find. by destruct Hfind as [node ->]. }
  split; [| split; [| split]].
  - intros q. rewrite !elem_of_descendants_root, is_Some_find_touch. tauto.
  - intros [-> | [_ Hp]%elem_of_descendants_root]; by apply Hthere.
  - intros Hp Hnot. rewrite node_at_find.
    destruct (find self p) as [node|] eqn:Hfind; [| done].
    destruct Hnot. apply elem_of_descendants_root. by eauto.
  - apply touch_present, is_Some_find_touch. by right.
Qed.

(** Storing twice at the same place keeps the second node. *)
Lemma store_store (self : t) (p : path) (node node' : t) :
  (getdescendant ((getdescendant self p).2 node) p).2 node'
  = (getdescendant self p).2 node'.
Proof.
  revert self. induction p as [|item p IH]; intros self; [done |].
  rewrite (getdescendant_cons self). cbn [snd].
  rewrite getdescendant_cons. cbn [snd geometries transform children].
  rewrite getitem_store, IH. by rewrite insert_insert_eq.
Qed.

Lemma assign_assign (self : t) (p : path) (f g : t → t) :
  assign (assign self p f) p g = assign self p (λ node, g (f node)).
Proof.
  unfold assign at 1. rewrite node_at_assign. unfold assign.
  apply store_store.
Qed.

End tree_more.

(** ** Publishing *)

Section core_more.
Context `{TransformCodec}.
Import CoreVisualizer.

Lemma load_records_touch_all (tr : LazyTree.t) (ps' ps : list path) :
  load_records (touch_all tr ps') ps = load_records tr ps.
Proof.
  unfold load_records. apply list_omap_ext, Forall2_same_length_lookup.
  split; [done |]. intros i p1 p2 Hp1 Hp2. simplify_eq.
  by destruct (node_at_touch_all tr ps' p1) as [-> _].
Qed.

Lemma touch_all_present (tr : LazyTree.t) (ps : list path) :
  (∀ p, p ∈ ps → is_Some (LazyTree.find tr p)) → touch_all tr ps = tr.
Proof.
  induction ps as [|p ps IH]; intros Hps; [done |].
  simpl. rewrite touch_present by (apply Hps; by left).
  apply IH. intros p' Hp'. apply Hps. by right.
Qed.

Lemma flushed_tree_idemp (tr : LazyTree.t) (q : CommandQueue.t) :
  flushed_tree (flushed_tree tr q) q = flushed_tree tr q.
Proof.
  unfold flushed_tree at 1. apply touch_all_present. intros p Hp.
  apply is_Some_find_touch_all. right. by exists p.
Qed.

Lemma queue_message_flushed_tree (e : Env) (tr : LazyTree.t) (q : CommandQueue.t) :
  queue_message e (flushed_tree tr q) q = queue_message e tr q.
Proof.
  unfold queue_message, queue_data, flushed_tree.
  by rewrite load_records_touch_all, draw_records_touch_all.
Qed.

(** X5.  [publish] with nothing pending does nothing, whatever the transport
    does; and after a publish whose send returned, a second publish does
    nothing: no message, no change of state. *)
Theorem publish_twice (e1 e2 : Env) (s : t) :
  (CommandQueue.isempty (queue s) = true →
     Core.publish e2 s = (Returned tt, s)) ∧
  (transport_up e1 = true →
     Core.publish e2 (Core.publish e1 s).2
     = (Returned tt, (Core.publish e1 s).2)).
Proof.
  split.
  - intros Hq. by rewrite publish_run, Hq.
  - intros Hup. rewrite (publish_run e1), Hup.
    destruct (CommandQueue.isempty (queue s)) eqn:Hq; simpl.
    + by rewrite publish_run, Hq.
    + by rewrite publish_run.
Qed.

(** X6.  A publish that failed in the transport can be retried: the retry
    whose send returns gives the outcome, the message and the state that a
    first publish at that moment would have given.  The batch is not lost. *)
Theorem publish_retry (e1 e2 : Env) (s : t) :
  transport_up e1 = false →
  transport_up e2 = true →
  Core.publish e2 (Core.publish e1 s).2 = Core.publish e2 s.
Proof.
  intros Hdown Hup. rewrite (publish_run e1), Hdown.
  destruct (CommandQueue.isempty (queue s)) eqn:Hq; simpl; [done |].
  rewrite !publish_run. simpl. rewrite Hq, Hup. unfold flushed. simpl.
  by rewrite queue_message_flushed_tree, flushed_tree_idemp.
Qed.

Lemma has_path_delete_record (p q : path) :
  has_path p (Core.delete_record q) = bool_decide (q = p).
Proof.
  unfold has_path, Core.delete_record, json_path. simpl.
  rewrite json_strings_path. apply bool_decide_ext. naive_solver.
Qed.

(** Among the records made from a list of distinct paths, one is for [p]. *)
Lemma filter_records (f : path → json) (ps : list path) (p : path) :
  (∀ q, has_path p (f q) = bool_decide (q = p)) →
  NoDup ps → p ∈ ps →
  filter (λ r, has_path p r = true) (f <$> ps) = [f p].
Proof.
  intros Hf. induction ps as [|q ps IH]; intros Hnd Hp;
    [by apply elem_of_nil in Hp |].
  apply NoDup_cons in Hnd as [Hq Hnd]. rewrite fmap_cons.
  destruct (decide (q = p)) as [-> | Hne].
  - rewrite filter_cons_True by by rewrite Hf, bool_decide_eq_true.
    f_equal. clear IH Hp Hnd. induction ps as [|q ps IH]; [done |].
    apply not_elem_of_cons in Hq as [Hne Hq]. rewrite fmap_cons.
    rewrite filter_cons_False; [by apply IH |].
    rewrite Hf, bool_decide_eq_true. congruence.
  - rewrite filter_cons_False by by rewrite Hf, bool_decide_eq_true.
    apply IH; [done |]. by apply elem_of_cons in Hp as [-> | Hp].
Qed.

(** X7.  A publish on a non-empty queue whose send returns: the delete list
    of the message has one record for every delete-marked path and no other
    record; its draw list has one record for every draw-marked path, with
    the encoding of the transform the node has at that moment, and no other
    record. *)
Theorem publish_delete_draw_records (e : Env) (s : t) :
  CommandQueue.isempty (queue s) = false →
  transport_up e = true →
  ∃ msg,
    lcm (Core.publish e s).2 = lcm s ++ [(request_channel, msg)] ∧
    (∀ rec, rec ∈ message_list "delete" msg ↔
       ∃ p, p ∈ CommandQueue.delete (queue s) ∧
            rec = JObj [ ("path", json_path p) ]) ∧
    (∀ rec, rec ∈ message_list "draw" msg ↔
       ∃ p, p ∈ CommandQueue.draw (queue s) ∧
            rec = JObj [ ("path", json_path p);
                         ("transform",
                          serialize_transform
                            (LazyTree.transform
                               (LazyTree.node_at (tree s) p))) ]) ∧
    (∀ p, p ∈ CommandQueue.delete (queue s) →
          length (filter (λ r, has_path p r = true)
                         (message_list "delete" msg)) = 1) ∧
    (∀ p, p ∈ CommandQueue.draw (queue s) →
          length (filter (λ r, has_path p r = true)
                         (message_list "draw" msg)) = 1).
Proof.
  intros Hq Hup. rewrite publish_run, Hq, Hup. simpl.
  eexists. split; [done |].
  rewrite message_list_delete, message_list_draw.
  split; [| split; [| split]].
  - intros rec. rewrite list_elem_of_fmap. split.
    + intros (p & -> & Hp). exists p. by rewrite elem_of_elements in Hp.
    + intros (p & Hp & ->). exists p. by rewrite elem_of_elements.
  - intros rec. rewrite elem_of_draw_records. split.
    + intros (p & Hp & ->). exists p. by rewrite elem_of_elements in Hp.
    + intros (p & Hp & ->). exists p. by rewrite elem_of_elements.
  - intros p Hp. rewrite (filter_records Core.delete_record); [done | | |].
    + intros q. apply has_path_delete_record.
    + apply NoDup_elements.
    + by apply elem_of_elements.
  - intros p Hp. rewrite filter_draw_records; [done | |].
    + apply NoDup_elements.
    + by apply elem_of_elements.
Qed.

(** X8.  Every message [publish] sends goes to the request channel and is
    filled by [to_lcm] without failure: format "treeviewer_json", version
    1.0, and its [utime] is the clock reading that the payload carries under
    "utime". *)
Theorem publish_envelope (e : Env) (s : t) :
  CommandQueue.isempty (queue s) = false →
  transport_up e = true →
  ∃ msg fields,
    lcm (Core.publish e s).2
      = lcm s ++ [("DIRECTOR_TREE_VIEWER_REQUEST", msg)] ∧
    format msg = "treeviewer_json" ∧
    format_version_major msg = 1%Z ∧
    format_version_minor msg = 0%Z ∧
    data msg = JObj fields ∧
    dict_get "utime" fields = Some (JNum (inject_Z (utime_now e))) ∧
    utime msg = JNum (inject_Z (utime_now e)) ∧
    to_lcm (data msg) = Returned msg.
Proof.
  intros Hq Hup. rewrite publish_run, Hq, Hup. simpl.
  eexists _, _. by repeat split.
Qed.

(** ** The mutating calls *)

Lemma queue_of_isempty (q : CommandQueue.t) :
  CommandQueue.isempty q = true → q = CommandQueue.new.
Proof.
  intros (Hd & Hl & Hx)%isempty_true. destruct q as [d l x].
  simpl in *. by subst.
Qed.

Lemma elements_mark (p : path) :
  elements ({[ p ]} ∪ ∅ : gset path) = [p].
Proof. by rewrite (right_id_L ∅ (∪)), elements_singleton. Qed.

Lemma elements_no_mark : elements (∅ : gset path) = [].
Proof. apply elements_empty. Qed.

(** X9.  In immediate mode with nothing pending and the transport up, a call
    that returns sends exactly one message and leaves nothing pending.  The
    message holds the record of that call and nothing else: a draw gives one
    draw record with the encoding of the new transform, a delete one delete
    record, a load one load record with the serialized geometries.  A load
    of an empty collection sends a message whose three lists are empty. *)
Theorem immediate_call_message (e : Env) (k : call) (s : t) :
  publish_immediately s = true →
  CommandQueue.isempty (queue s) = true →
  transport_up e = true →
  (run_call e k s).1 = Returned tt →
  ∃ msg,
    lcm (run_call e k s).2 = lcm s ++ [(request_channel, msg)] ∧
    CommandQueue.isempty (queue (run_call e k s).2) = true ∧
    message_list "delete" msg
      = match k with
        | Delete d => [JObj [ ("path", json_path d) ]]
        | _ => []
        end ∧
    message_list "load" msg
      = match k with
        | Load p geomdata =>
            match loaded geomdata with
            | [] => []
            | geoms =>
                [JObj [ ("path", json_path p);
                        ("geometries",
                         JArr (GeometryData.serialize <$> geoms)) ]]
            end
        | _ => []
        end ∧
    message_list "draw" msg
      = match k with
        | Draw p tform =>
            [JObj [ ("path", json_path p);
                    ("transform", serialize_transform tform) ]]
        | _ => []
        end.
Proof.
  intros Hnow Hq Hup Hret. apply queue_of_isempty in Hq.
  assert (∀ p' s1, publish_immediately s1 = true →
            (p' ∈ CommandQueue.draw (queue s1) ∨ p' ∈ CommandQueue.load (queue s1)
             ∨ p' ∈ CommandQueue.delete (queue s1)) →
            Core._maybe_publish e s1 = (Returned tt, flushed e s1)) as Hflush.
  { intros p' s1 Hnow1 Hp'. rewrite maybe_publish_run, Hnow1, publish_run, Hup.
    by rewrite (isempty_false _ p'). }
  destruct k as [p geomdata | p tform | d]; simpl in *.
  - rewrite load_run, (Hflush p) by (simpl; rewrite ?Hq; set_solver).
    simpl. eexists. split; [done |]. split; [done |].
    rewrite message_list_delete, message_list_load, message_list_draw.
    simpl. rewrite Hq. simpl. rewrite elements_mark, elements_no_mark.
    split; [done |]. split; [| done].
    unfold load_records. simpl. rewrite node_at_assign. simpl.
    by destruct (loaded geomdata).
  - rewrite draw_run, (Hflush p) by (simpl; rewrite ?Hq; set_solver).
    simpl. eexists. split; [done |]. split; [done |].
    rewrite message_list_delete, message_list_load, message_list_draw.
    simpl. rewrite Hq. simpl. rewrite elements_mark, elements_no_mark.
    split; [done |]. split; [done |].
    unfold draw_records. simpl. by rewrite node_at_assign.
  - assert (∀ tr, Core._maybe_publish e (mark_delete d (set_tree tr s))
                  = (Returned tt, flushed e (mark_delete d (set_tree tr s))) ∧
                  ∃ msg,
                    lcm (flushed e (mark_delete d (set_tree tr s)))
                      = lcm s ++ [(request_channel, msg)] ∧
                    message_list "delete" msg = [JObj [("path", json_path d)]] ∧
                    message_list "load" msg = [] ∧
                    message_list "draw" msg = []) as Hdelete.
    { intros tr. split; [apply (Hflush d); simpl; [done | set_solver] |].
      eexists. split; [done |].
      rewrite message_list_delete, message_list_load, message_list_draw.
      simpl. rewrite Hq. simpl. by rewrite elements_mark, elements_no_mark. }
    destruct (split_last_nil_or_snoc d) as [-> | (parent & name & ->)].
    + rewrite delete_root_run.
      destruct (Hdelete LazyTree.new) as [-> (msg & Hl & Hd & Hlo & Hdr)].
      exists msg. rewrite Hd, Hlo, Hdr. split; [exact Hl | done].
    + destruct (LazyTree.find (tree s) (parent ++ [name])) as [node|] eqn:Hnode.
      * rewrite delete_present_run by by rewrite Hnode.
        destruct (Hdelete (LazyTree.remove_child (tree s) parent name))
          as [-> (msg & Hl & Hd & Hlo & Hdr)].
        exists msg. rewrite Hd, Hlo, Hdr. split; [exact Hl | done].
      * by rewrite delete_absent_run in Hret.
Qed.

(** X10.  [delete] of a non-empty path without a node raises [KeyError] for
    its last name.  The path is not marked for delete and nothing is sent,
    but the read of the parent has created the nodes on the way to the
    parent, the parent included: they are in the tree afterwards. *)
Theorem delete_missing_node (e : Env) (parent : path) (name : string) (s : t) :
  parent ++ [name] ∉ LazyTree.descendants (tree s) [] →
  let r := Core.delete e (parent ++ [name]) s in
  r.1 = Raised (KeyError name) ∧
  queue r.2 = queue s ∧ lcm r.2 = lcm s ∧
  publish_immediately r.2 = publish_immediately s ∧
  (∀ q, q ∈ LazyTree.descendants (tree r.2) [] ↔
        q ∈ LazyTree.descendants (tree s) [] ∨ (q ≠ [] ∧ q `prefix_of` parent)) ∧
  (∀ q, LazyTree.geometries (LazyTree.node_at (tree r.2) q)
          = LazyTree.geometries (LazyTree.node_at (tree s) q) ∧
        LazyTree.transform (LazyTree.node_at (tree r.2) q)
          = LazyTree.transform (LazyTree.node_at (tree s) q)).
Proof.
  intros Hnot. simpl. rewrite delete_absent_run.
  - simpl. do 4 (split; [done |]). split.
    + intros q. rewrite !elem_of_descendants_root, is_Some_find_touch. tauto.
    + intros q. apply node_at_touch.
  - rewrite elem_of_descendants_root in Hnot.
    destruct (LazyTree.find (tree s) (parent ++ [name])) eqn:Hfind; [| done].
    destruct Hnot. split; [by destruct parent | by eauto].
Qed.

(** X11.  In batch mode the last write wins: a draw followed by a draw at the
    same path gives the outcome and the state of the second draw alone, and
    a load followed by a load at the same path those of the second load. *)
Theorem last_write_wins
    (e1 e2 : Env) (p : path) (A B : Matrix) (G1 G2 : geom_arg) (s : t) :
  publish_immediately s = false →
  Core.draw e2 p B (Core.draw e1 p A s).2 = Core.draw e2 p B s ∧
  Core.load e2 p G2 (Core.load e1 p G1 s).2 = Core.load e2 p G2 s.
Proof.
  intros Hbatch. rewrite !draw_run, !load_run, !maybe_publish_run. simpl.
  rewrite !Hbatch. simpl. rewrite !Hbatch. simpl.
  unfold mark_draw, mark_load, set_queue, set_tree. simpl.
  rewrite !assign_assign.
  replace ({[p]} ∪ ({[p]} ∪ CommandQueue.draw (queue s)))
    with ({[p]} ∪ CommandQueue.draw (queue s)) by set_solver.
  replace ({[p]} ∪ ({[p]} ∪ CommandQueue.load (queue s)))
    with ({[p]} ∪ CommandQueue.load (queue s)) by set_solver.
  done.
Qed.

(** X12.  What a draw and a load leave alone, in both modes and whatever the
    transport does: a draw changes no geometry list, and no transform but
    the one at its path; a load changes no transform, and no geometry list
    but the one at its path. *)
Theorem draw_load_frame
    (e : Env) (p q : path) (T : Matrix) (G : geom_arg) (s : t) :
  LazyTree.geometries (LazyTree.node_at (tree (Core.draw e p T s).2) q)
    = LazyTree.geometries (LazyTree.node_at (tree s) q) ∧
  (q ≠ p →
     LazyTree.transform (LazyTree.node_at (tree (Core.draw e p T s).2) q)
       = LazyTree.transform (LazyTree.node_at (tree s) q)) ∧
  LazyTree.transform (LazyTree.node_at (tree (Core.load e p G s).2) q)
    = LazyTree.transform (LazyTree.node_at (tree s) q) ∧
  (q ≠ p →
     LazyTree.geometries (LazyTree.node_at (tree (Core.load e p G s).2) q)
       = LazyTree.geometries (LazyTree.node_at (tree s) q)).
Proof.
  rewrite draw_run, load_run.
  repeat match goal with
  | |- context [Core._maybe_publish e ?s'] =>
      let Hg := fresh "Hg" in let Ht := fresh "Ht" in
      destruct (node_at_maybe_publish e s' q) as [Hg Ht];
      rewrite ?Hg, ?Ht; clear Hg Ht
  end.
  simpl. destruct (decide (q = p)) as [-> | Hne].
  - rewrite !node_at_assign. by repeat split.
  - destruct (node_at_assign_other (tree s) p q (LazyTree.with_transform T)
                eq_refl Hne) as [-> ->].
    destruct (node_at_assign_other (tree s) p q
                (LazyTree.with_geometries (loaded G)) eq_refl Hne) as [-> ->].
    by repeat split.
Qed.

Lemma maybe_publish_keeps_nodes (e : Env) (s : t) (q : path) :
  is_Some (LazyTree.find (tree s) q) →
  is_Some (LazyTree.find (tree (Core._maybe_publish e s).2) q).
Proof.
  intros Hq. rewrite maybe_publish_run, publish_run.
  destruct (publish_immediately s); [| done].
  destruct (CommandQueue.isempty (queue s)); [done |].
  destruct (transport_up e); simpl; apply is_Some_find_touch_all; by left.
Qed.

(** X13.  A load or a draw never removes a node: every path that was among
    the descendants of the root before the call is among them after it, in
    both modes, with anything pending and whatever the transport does. *)
Theorem load_draw_keep_nodes
    (e : Env) (p q : path) (T : Matrix) (G : geom_arg) (s : t) :
  q ∈ LazyTree.descendants (tree s) [] →
  q ∈ LazyTree.descendants (tree (Core.load e p G s).2) [] ∧
  q ∈ LazyTree.descendants (tree (Core.draw e p T s).2) [].
Proof.
  rewrite !elem_of_descendants_root. intros [Hq Hfind].
  rewrite load_run, draw_run.
  split; (split; [done |]); apply maybe_publish_keeps_nodes; simpl;
    (apply is_Some_find_assign; [done | by left]).
Qed.

(** X14.  [serialize_queue] always returns a dict, and what it does to the
    state is bounded: the queue, the transport and the publish mode are
    untouched, no geometry list and no transform changes, and the only nodes
    it adds are those on the way to a path marked for load or draw. *)
Theorem serialize_queue_frame (e : Env) (s : t) :
  let r := Core.serialize_queue e s in
  (∃ fields, r.1 = Returned (JObj fields)) ∧
  queue r.2 = queue s ∧ lcm r.2 = lcm s ∧
  publish_immediately r.2 = publish_immediately s ∧
  (∀ q, LazyTree.geometries (LazyTree.node_at (tree r.2) q)
          = LazyTree.geometries (LazyTree.node_at (tree s) q) ∧
        LazyTree.transform (LazyTree.node_at (tree r.2) q)
          = LazyTree.transform (LazyTree.node_at (tree s) q)) ∧
  (∀ q, q ∈ LazyTree.descendants (tree r.2) [] ↔
        q ∈ LazyTree.descendants (tree s) [] ∨
        (q ≠ [] ∧
         ∃ p, (p ∈ CommandQueue.load (queue s) ∨ p ∈ CommandQueue.draw (queue s))
              ∧ q `prefix_of` p)).
Proof.
  simpl. rewrite serialize_queue_run. simpl.
  split; [by eexists |]. do 3 (split; [done |]). split.
  - intros q. apply node_at_touch_all.
  - intros q. rewrite !elem_of_descendants_root. unfold flushed_tree.
    rewrite is_Some_find_touch_all. setoid_rewrite elem_of_app.
    setoid_rewrite elem_of_elements. naive_solver.
Qed.

(** ** The response handler *)

Lemma mark_all_idemp (ps : list path) (s : t) :
  mark_all ps (mark_all ps s) = mark_all ps s.
Proof.
  unfold mark_all, set_queue. simpl.
  replace (list_to_set ps ∪ (list_to_set ps ∪ CommandQueue.draw (queue s)))
    with (list_to_set ps ∪ CommandQueue.draw (queue s) : gset path)
    by set_solver.
  replace (list_to_set ps ∪ (list_to_set ps ∪ CommandQueue.load (queue s)))
    with (list_to_set ps ∪ CommandQueue.load (queue s) : gset path)
    by set_solver.
  done.
Qed.

(** The handler either returns and leaves [s] or the resync marks, or raises
    and leaves [s]. *)
Lemma handle_response_cases (data : json) (s : t) :
  Core._handle_response data s = (Returned tt, s) ∨
  Core._handle_response data s
    = (Returned tt, mark_all (LazyTree.descendants (tree s) []) s) ∨
  ∃ exn, Core._handle_response data s = (Raised exn, s).
Proof.
  destruct data as [| b | n | str | items | fields];
    try (right; right; by eexists).
  destruct (dict_get "status" fields) as [status|] eqn:Hstatus.
  - destruct (py_eq_num status 0) eqn:H0.
    + left. by eapply handle_response_ack.
    + destruct (py_eq_num status 1) eqn:H1.
      * right. left. by eapply handle_response_resync.
      * right. right. unfold Core._handle_response.
        rewrite Hstatus, H0, H1. by eexists.
  - right. right. unfold Core._handle_response. rewrite Hstatus. by eexists.
Qed.

(** X15.  Whatever the response is, [_handle_response] sends nothing, leaves
    the tree, the delete set and the publish mode as they are, and removes
    no load or draw mark; and when it raises (no "status", a payload that is
    not a dict, an unknown status) the whole state is the one before. *)
Theorem handle_response_frame (data : json) (s : t) :
  let r := Core._handle_response data s in
  lcm r.2 = lcm s ∧ tree r.2 = tree s ∧
  publish_immediately r.2 = publish_immediately s ∧
  CommandQueue.delete (queue r.2) = CommandQueue.delete (queue s) ∧
  CommandQueue.load (queue s) ⊆ CommandQueue.load (queue r.2) ∧
  CommandQueue.draw (queue s) ⊆ CommandQueue.draw (queue r.2) ∧
  (∀ exn, r.1 = Raised exn → r.2 = s).
Proof.
  simpl. destruct (handle_response_cases data s) as [-> | [-> | [exn ->]]];
    simpl; repeat split; try done; set_solver.
Qed.

(** X16.  Handling the same response twice gives the outcome and the state of
    handling it once: a repeated resync request marks nothing more. *)
Theorem handle_response_twice (data : json) (s : t) :
  Core._handle_response data (Core._handle_response data s).2
  = Core._handle_response data s.
Proof.
  destruct data as [| b | n | str | items | fields]; try done.
  destruct (dict_get "status" fields) as [status|] eqn:Hstatus.
  - destruct (py_eq_num status 0) eqn:H0.
    + by rewrite !(handle_response_ack _ _ _ Hstatus H0).
    + destruct (py_eq_num status 1) eqn:H1.
      * rewrite !(handle_response_resync _ _ _ Hstatus H0 H1). simpl.
        by rewrite mark_all_idemp.
      * unfold Core._handle_response. by rewrite Hstatus, H0, H1.
  - unfold Core._handle_response. by rewrite Hstatus.
Qed.

(** ** Marks that outlive their node *)

(** X17.  [delete] leaves the load and draw marks of the deleted path in the
    queue.  In batch mode, [draw(p, T)] then [delete(p)] then a publish whose
    send returns: both calls return and [p] is gone after the delete, but
    the message has a delete record and a draw record for [p], the draw
    record carries the encoding of the identity and not of [T], and [p] is
    in the tree again after the publish. *)
Theorem deleted_node_is_redrawn
    (e1 e2 e3 : Env) (p : path) (T : Matrix) (s : t) :
  publish_immediately s = false →
  p ≠ [] →
  transport_up e3 = true →
  let r1 := Core.draw e1 p T s in
  let r2 := Core.delete e2 p r1.2 in
  let r3 := Core.publish e3 r2.2 in
  r1.1 = Returned tt ∧ r2.1 = Returned tt ∧ r3.1 = Returned tt ∧
  (p ∉ LazyTree.descendants (tree r2.2) []) ∧
  p ∈ LazyTree.descendants (tree r3.2) [] ∧
  ∃ msg,
    lcm r3.2 = lcm s ++ [(request_channel, msg)] ∧
    JObj [ ("path", json_path p) ] ∈ message_list "delete" msg ∧
    JObj [ ("path", json_path p); ("transform", serialize_transform eye4) ]
      ∈ message_list "draw" msg.
Proof.
  intros Hbatch Hp Hup. simpl. rewrite draw_run, maybe_publish_run.
  simpl. rewrite Hbatch. simpl.
  destruct (split_last_nil_or_snoc p) as [-> | (parent & name & ->)]; [done |].
  set (tr1 := LazyTree.assign (tree s) (parent ++ [name])
                (LazyTree.with_transform T)).
  assert (is_Some (LazyTree.find tr1 (parent ++ [name]))) as Hthere.
  { apply is_Some_find_assign; [done | by right]. }
  rewrite delete_present_run by done. rewrite maybe_publish_run.
  simpl. rewrite Hbatch. simpl.
  set (tr2 := LazyTree.remove_child tr1 parent name).
  assert (LazyTree.find tr2 (parent ++ [name]) = None) as Hgone.
  { destruct (LazyTree.find tr2 (parent ++ [name])) eqn:Hfind; [| done].
    assert (is_Some (LazyTree.find tr2 (parent ++ [name]))) as Hsome
      by by rewrite Hfind.
    apply is_Some_find_remove_child in Hsome as [_ Hnot];
      [by destruct Hnot | by apply is_Some_child_node_at]. }
  rewrite publish_run, Hup.
  rewrite (isempty_false _ (parent ++ [name])) by (left; simpl; set_solver).
  simpl. do 3 (split; [done |]). split; [| split].
  - rewrite elem_of_descendants_root, Hgone. by intros [_ [? ?]].
  - apply elem_of_descendants_root. split; [done |].
    apply is_Some_find_touch_all. right. exists (parent ++ [name]).
    split; [| done]. rewrite elem_of_app, !elem_of_elements. right. set_solver.
  - eexists. split; [done |].
    rewrite message_list_delete, message_list_draw. simpl. split.
    + apply list_elem_of_fmap. exists (parent ++ [name]).
      split; [done |]. apply elem_of_elements. set_solver.
    + apply elem_of_draw_records. exists (parent ++ [name]). split.
      * apply elem_of_elements. set_solver.
      * by rewrite node_at_find, Hgone.
Qed.

End core_more.

(** ** Calls and the transport *)

Section transport_more.
Context `{TransformCodec}.
Import CoreVisualizer.

Lemma batch_call (e : Env) (k : call) (s : t) :
  publish_immediately s = false →
  lcm (run_call e k s).2 = lcm s ∧
  publish_immediately (run_call e k s).2 = false ∧
  (run_call e k s).1 ≠ Raised TransportError.
Proof.
  intros Hbatch. destruct k as [p geomdata | p tform | d]; simpl.
  - rewrite load_run, maybe_publish_run. simpl. by rewrite Hbatch.
  - rewrite draw_run, maybe_publish_run. simpl. by rewrite Hbatch.
  - destruct (split_last_nil_or_snoc d) as [-> | (parent & name & ->)].
    + rewrite delete_root_run, maybe_publish_run. simpl. by rewrite Hbatch.
    + destruct (LazyTree.find (tree s) (parent ++ [name])) as [node|] eqn:Hnode.
      * rewrite delete_present_run by by rewrite Hnode.
        rewrite maybe_publish_run. simpl. by rewrite Hbatch.
      * by rewrite delete_absent_run.
Qed.

(** X24.  In batch mode no sequence of load, draw and delete calls sends a
    message or fails in the transport, whatever the transport does and also
    when a delete in the sequence raises; the mode stays off. *)
Theorem batch_calls_send_nothing (ks : list (Env * call)) (s : t) :
  publish_immediately s = false →
  lcm (run_calls ks s).2 = lcm s ∧
  publish_immediately (run_calls ks s).2 = false ∧
  (run_calls ks s).1 ≠ Raised TransportError.
Proof.
  revert s. induction ks as [|[e k] ks IH]; intros s Hbatch; [done |].
  destruct (batch_call e k s Hbatch) as (Hlcm & Hmode & Hexn).
  simpl. unfold mbind, core_bind, bind.
  destruct (run_call e k s) as [[[] | exn] s1]; simpl in *.
  - destruct (IH s1 Hmode) as (Hlcm' & Hmode' & Hexn').
    by rewrite Hlcm', Hlcm.
  - done.
Qed.

(** X25.  In immediate mode with the transport down, a draw and a load raise
    the transport failure after they did their work: nothing is sent, but
    the node has the new transform (the new geometry list) and the path is
    left marked, so a later publish sends it. *)
Theorem immediate_call_transport_down
    (e : Env) (p : path) (T : Matrix) (G : geom_arg) (s : t) :
  publish_immediately s = true →
  transport_up e = false →
  (let r := Core.draw e p T s in
   r.1 = Raised TransportError ∧ lcm r.2 = lcm s ∧
   LazyTree.transform (LazyTree.node_at (tree r.2) p) = T ∧
   p ∈ CommandQueue.draw (queue r.2)) ∧
  (let r := Core.load e p G s in
   r.1 = Raised TransportError ∧ lcm r.2 = lcm s ∧
   LazyTree.geometries (LazyTree.node_at (tree r.2) p) = loaded G ∧
   p ∈ CommandQueue.load (queue r.2)).
Proof.
  intros Hnow Hdown. simpl.
  rewrite draw_run, load_run, !maybe_publish_run. simpl. rewrite !Hnow.
  rewrite !publish_run, !Hdown.
  rewrite !(isempty_false _ p) by (simpl; set_solver). simpl.
  unfold flushed_tree.
  split; (split; [done |]); (split; [done |]); (split; [| set_solver]).
  - match goal with
    | |- context [touch_all ?tr ?ps] =>
        destruct (node_at_touch_all tr ps p) as [_ ->]
    end.
    by rewrite node_at_assign.
  - match goal with
    | |- context [touch_all ?tr ?ps] =>
        destruct (node_at_touch_all tr ps p) as [-> _]
    end.
    by rewrite node_at_assign.
Qed.

End transport_more.

(** ** The path of a visualizer handle *)

Section path_more.

Lemma split_slash_cons (s : string) : ∃ word words, split_slash s = word :: words.
Proof.
  destruct s as [|c rest]; simpl; [by eauto |].
  case_decide; [by eauto |]. destruct (split_slash rest); by eauto.
Qed.

Lemma split_slash_word (word : string) :
  slash_free word = true → split_slash word = [word].
Proof.
  induction word as [|c word IH]; [done |]. simpl.
  intros [Hc Hword]%andb_true_iff.
  apply negb_true_iff, bool_decide_eq_false in Hc.
  rewrite decide_False by done. by rewrite IH.
Qed.

Lemma split_slash_app (a b : string) :
  split_slash (a +:+ String "/" b) = split_slash a ++ split_slash b.
Proof.
  induction a as [|c a IH]; simpl.
  - done.
  - case_decide; [by rewrite IH |]. rewrite IH.
    by destruct (split_slash_cons a) as (word & words & ->).
Qed.

Lemma split_slash_free (s name : string) :
  name ∈ split_slash s → slash_free name = true.
Proof.
  revert name. induction s as [|c s IH]; simpl; intros name.
  - by intros ->%list_elem_of_singleton.
  - case_decide as Hc.
    + intros [-> | Hname]%elem_of_cons; [done | by apply IH].
    + destruct (split_slash_cons s) as (word & words & Hs). rewrite Hs in *.
      intros [-> | Hname]%elem_of_cons.
      * simpl. rewrite bool_decide_eq_false_2 by done. simpl.
        apply IH. by left.
      * apply IH. by right.
Qed.

Lemma concat_split_slash (s : string) : String.concat "/" (split_slash s) = s.
Proof.
  induction s as [|c s IH]; [done |]. simpl.
  destruct (split_slash_cons s) as (word & words & Hs). rewrite Hs in *.
  case_decide as Hc.
  - subst c. change (String "/" (String.concat "/" (word :: words)) = String "/" s).
    by rewrite IH.
  - destruct words as [|word' words].
    + simpl in *. by rewrite IH.
    + change (String c (word +:+ "/" +:+ String.concat "/" (word' :: words))
              = String c s).
      by rewrite <- IH.
Qed.

Lemma split_slash_concat (names : list string) :
  names ≠ [] →
  Forall (λ name, slash_free name = true) names →
  split_slash (String.concat "/" names) = names.
Proof.
  induction names as [|name names IH]; [done |]. intros _ Hnames.
  apply Forall_cons in Hnames as [Hname Hnames].
  destruct names as [|name' names]; [by apply split_slash_word |].
  change (split_slash (name +:+ String "/" (String.concat "/" (name' :: names)))
          = name :: name' :: names).
  rewrite split_slash_app. rewrite (split_slash_word name) by done.
  by rewrite IH.
Qed.

Lemma filter_nonempty_names (names : list string) :
  Forall (λ name, name ≠ EmptyString) names →
  filter (λ part, part ≠ EmptyString) names = names.
Proof.
  induction 1 as [|name names Hname Hnames IH]; [done |].
  by rewrite filter_cons_True, IH.
Qed.

Lemma new_absolute (s : string) :
  Visualizer.new (PathStr (String "/" s))
  = Visualizer.Build (filter (λ part, part ≠ EmptyString) (split_slash s)).
Proof.
  unfold Visualizer.new.
  change (split_slash (String "/" s)) with (EmptyString :: split_slash s).
  cbv iota beta. by rewrite filter_cons_False by (intros Hne; by apply Hne).
Qed.

(** X18.  The string form of a path is read back: for names that are not
    empty and hold no "/", [Visualizer(path="/" + "/".join(names))] has the
    path [names]; "/" itself gives the empty path. *)
Theorem visualizer_path_of_string (names : list string) :
  Forall (λ name, name ≠ EmptyString ∧ slash_free name = true) names →
  Visualizer.new (PathStr (String "/" (String.concat "/" names)))
  = Visualizer.Build names.
Proof.
  intros Hnames. rewrite new_absolute.
  destruct names as [|name names]; [done |].
  rewrite split_slash_concat; [| done |].
  - f_equal. apply filter_nonempty_names.
    eapply Forall_impl; [done |]. by intros name' [? _].
  - eapply Forall_impl; [done |]. by intros name' [_ ?].
Qed.

(** X19.  Indexing a handle agrees with the string form: for every string [s]
    and every name that is not empty and holds no "/",
    [Visualizer(path=s + "/" + name)] is [Visualizer(path=s)[name]]. *)
Theorem visualizer_getitem_of_string (s name : string) :
  name ≠ EmptyString →
  slash_free name = true →
  Visualizer.new (PathStr (s +:+ String "/" name))
  = Visualizer.getitem (Visualizer.new (PathStr s)) name.
Proof.
  intros Hne Hfree. unfold Visualizer.new, Visualizer.getitem.
  rewrite split_slash_app. rewrite (split_slash_word name) by done.
  destruct (split_slash_cons s) as (word & words & ->).
  destruct word as [|c word]; simpl.
  - rewrite !filter_cons_False by (intros Hw; by apply Hw).
    rewrite filter_app. f_equal. f_equal. by rewrite filter_cons_True.
  - done.
Qed.

(** X20.  The names read from a string never hold a "/"; when the string
    starts with "/" they are never empty either. *)
Theorem visualizer_names_of_string (s name : string) :
  (name ∈ Visualizer.path (Visualizer.new (PathStr s)) →
     slash_free name = true) ∧
  (name ∈ Visualizer.path (Visualizer.new (PathStr (String "/" s))) →
     name ≠ EmptyString).
Proof.
  split.
  - unfold Visualizer.new. destruct (split_slash_cons s) as (word & words & Hs).
    rewrite Hs. destruct word as [|c word]; simpl.
    + intros [_ Hname]%list_elem_of_filter. apply (split_slash_free s).
      by rewrite Hs.
    + intros Hname. apply (split_slash_free s). by rewrite Hs.
  - rewrite new_absolute. simpl. by intros [Hname _]%list_elem_of_filter.
Qed.

(** X21.  A string that does not start with "/" is split and kept as it is,
    empty names included: joining the path with "/" gives the string back,
    and a doubled slash in it puts an empty name on the path. *)
Theorem visualizer_relative_string (c : ascii) (a b : string) :
  c ≠ "/"%char →
  String.concat "/" (Visualizer.path (Visualizer.new (PathStr (String c a))))
    = String c a ∧
  EmptyString
    ∈ Visualizer.path
        (Visualizer.new (PathStr (String c a +:+ String "/" (String "/" b)))).
Proof.
  intros Hc.
  assert (∀ s, Visualizer.path (Visualizer.new (PathStr (String c s)))
               = split_slash (String c s)) as Hkept.
  { intros s. unfold Visualizer.new. simpl. rewrite decide_False by done.
    by destruct (split_slash_cons s) as (word & words & ->). }
  split.
  - rewrite Hkept. apply concat_split_slash.
  - change (String c a +:+ String "/" (String "/" b))
      with (String c (a +:+ String "/" (String "/" b))).
    rewrite Hkept.
    change (String c (a +:+ String "/" (String "/" b)))
      with (String c a +:+ String "/" (String "/" b)).
    rewrite split_slash_app. apply elem_of_app. right.
    change (split_slash (String "/" b)) with (EmptyString :: split_slash b).
    by left.
Qed.

End path_more.

(** ** Serialized geometry *)

Section geometry_more.
Context `{TransformCodec}.

Lemma fmap_JNum_inj (l1 l2 : list Q) : JNum <$> l1 = JNum <$> l2 → l1 = l2.
Proof.
  revert l2. induction l1 as [|q l1 IH]; intros [|q' l2] Heq; try done.
  injection Heq as -> Heq. f_equal. by apply IH.
Qed.

(** X22.  The record of a geometry instance determines it, up to the codec:
    two instances with the same record have the same primitive (type and
    parameters), the same color and the same encoded transform. *)
Theorem serialize_geometry_inj (d1 d2 : GeometryData.t) :
  GeometryData.serialize d1 = GeometryData.serialize d2 →
  GeometryData.geometry d1 = GeometryData.geometry d2 ∧
  GeometryData.color d1 = GeometryData.color d2 ∧
  serialize_transform (GeometryData.transform d1)
    = serialize_transform (GeometryData.transform d2).
Proof.
  destruct d1 as [g1 c1 t1], d2 as [g2 c2 t2].
  unfold GeometryData.serialize. simpl.
  destruct g1, g2; simpl; intros [= ]; simplify_eq;
    repeat match goal with
    | Heq : JNum <$> _ = JNum <$> _ |- _ => apply fmap_JNum_inj in Heq
    end;
    unfold serialize_transform, json_nums; repeat split; congruence.
Qed.

(** X23.  In the record of a geometry instance, "color" and "transform" are
    the color and the encoded transform of the instance, and every field
    that the primitive serialized is kept with its value: no parameter of a
    primitive is overwritten. *)
Theorem serialize_geometry_fields (d : GeometryData.t) :
  ∃ fields,
    GeometryData.serialize d = JObj fields ∧
    dict_get "color" fields = Some (json_nums (GeometryData.color d)) ∧
    dict_get "transform" fields
      = Some (serialize_transform (GeometryData.transform d)) ∧
    ∀ key value,
      dict_get key (BaseGeometry.serialize (GeometryData.geometry d))
        = Some value →
      dict_get key fields = Some value.
Proof.
  eexists. split; [done |].
  destruct d as [g c t]. simpl.
  destruct g; simpl; (split; [done |]); (split; [done |]);
    intros key value; repeat case_decide; by simplify_eq.
Qed.

End geometry_more.

(** * The claims on concrete scenes *)

#[local] Existing Instance translation_codec.

(** *** C1 *)

(** C1 fails as stated: after [load(("a", "b"), box)] on a fresh core the
    descendants are ("a",) and ("a", "b"), and ("a",) was never the target
    of a load or a draw. *)
Lemma load_creates_untargeted_node :
  (run_calls [(up 0, Load ["a"; "b"] unit_box)] CoreVisualizer.new).1
    = Returned tt ∧
  ¬ (∀ q,
       q ∈ LazyTree.descendants
             (CoreVisualizer.tree
                (run_calls [(up 0, Load ["a"; "b"] unit_box)]
                           CoreVisualizer.new).2) []
       ↔ targeted_alive [Load ["a"; "b"] unit_box] q).
Proof.
  split; [by vm_compute |]. intros Hall.
  destruct (Hall ["a"]) as [Hto _].
  destruct Hto as (before & k & after & Heq & Htarget & _); [by_evaluation |].
  destruct before as [|k' before].
  - injection Heq as <- _. discriminate Htarget.
  - injection Heq as _ Heq. by destruct before.
Qed.

(** A load, a draw and a delete that all return. *)
Lemma descendants_after_calls_witness :
  ["a"] ∈ LazyTree.descendants
            (CoreVisualizer.tree (run_calls example_calls CoreVisualizer.new).2) []
  ↔ reached_alive (example_calls.*2) ["a"].
Proof.
  apply (descendants_after_calls true example_calls). vm_compute. reflexivity.
Defined.

(** *** C2 *)

(** C2 fails as stated: with a draw mark pending and the transport down,
    [publish] raises and the mark is still in the queue. *)
Lemma failed_send_keeps_batch :
  CommandQueue.isempty (CoreVisualizer.queue pending_draw) = false ∧
  (Core.publish (down 1) pending_draw).1 = Raised TransportError ∧
  CommandQueue.isempty
    (CoreVisualizer.queue (Core.publish (down 1) pending_draw).2) = false ∧
  ["a"] ∈ CommandQueue.draw
            (CoreVisualizer.queue (Core.publish (down 1) pending_draw).2).
Proof.
  split; [by vm_compute |]. split; [by vm_compute |].
  split; [by vm_compute | by_evaluation].
Qed.

(** A pending draw mark, published with the transport up and with it down. *)
Lemma publish_clears_after_send_witness :
  CommandQueue.isempty (CoreVisualizer.queue pending_draw) = false ∧
  CommandQueue.draw
    (CoreVisualizer.queue (Core.publish (up 1) pending_draw).2) = ∅ ∧
  CoreVisualizer.queue (Core.publish (down 1) pending_draw).2
    = CoreVisualizer.queue pending_draw.
Proof.
  assert (CommandQueue.isempty (CoreVisualizer.queue pending_draw) = false)
    as Hpending by (vm_compute; reflexivity).
  split; [exact Hpending |]. split.
  - destruct (publish_clears_after_send (up 1) pending_draw Hpending)
      as [Hup _].
    apply Hup. reflexivity.
  - destruct (publish_clears_after_send (down 1) pending_draw Hpending)
      as [_ Hdown].
    apply Hdown. reflexivity.
Defined.

(** *** C3 *)

(** C3 fails as stated: on a fresh core [delete(("a",))], a well-formed path
    with no node, raises [KeyError]. *)
Lemma delete_missing_node_raises :
  (["a"] ∉ LazyTree.descendants (CoreVisualizer.tree CoreVisualizer.new) []) ∧
  (Core.delete (up 0) ["a"] CoreVisualizer.new).1 = Raised (KeyError "a").
Proof. split; [by_evaluation | by vm_compute]. Qed.

(** Deleting ("a",) under which ("a", "b") was loaded. *)
Lemma delete_removes_subtree_witness :
  ["a"] ∈ LazyTree.descendants (CoreVisualizer.tree loaded_ab) [] ∧
  ∃ s1,
    Core.delete (up 1) ["a"] loaded_ab = Core._maybe_publish (up 1) s1 ∧
    ∀ q, q ∈ LazyTree.descendants (CoreVisualizer.tree s1) [] ↔
         q ∈ LazyTree.descendants (CoreVisualizer.tree loaded_ab) []
         ∧ ¬ (["a"] `prefix_of` q).
Proof.
  assert (["a"] ∈ LazyTree.descendants (CoreVisualizer.tree loaded_ab) [])
    as Hnode by by_evaluation.
  split; [exact Hnode |].
  destruct (delete_removes_subtree (up 1) ["a"] loaded_ab (or_intror Hnode))
    as (s1 & Hrun & _ & _ & _ & _ & _ & _ & _ & Hnodes & _).
  exists s1. split; [exact Hrun | exact Hnodes].
Defined.

(** *** C4 *)

(** C4 fails as stated: ("a",) is in the tree with no geometry; after a
    status 1 response the next publish sends a message whose load list is
    empty, so no load record is emitted for it. *)
Lemma resync_emits_no_load_for_empty_node :
  let s := (Core.draw (up 0) ["a"] eye4 CoreVisualizer.new).2 in
  let r := Core._handle_response (JObj resync_request) s in
  let r' := Core.publish (up 1) r.2 in
  ["a"] ∈ LazyTree.descendants (CoreVisualizer.tree r.2) [] ∧
  r.1 = Returned tt ∧ r'.1 = Returned tt ∧
  length (CoreVisualizer.lcm r'.2) = S (length (CoreVisualizer.lcm r.2)) ∧
  message_list "load" <$> (snd <$> last (CoreVisualizer.lcm r'.2)) = Some [].
Proof.
  cbv zeta. split; [by_evaluation |]. by vm_compute.
Qed.

(** A resync request on a tree that holds a box at ("a", "b"). *)
Lemma handle_response_resyncs_witness :
  dict_get "status" resync_request = Some (JNum 1) ∧
  ["a"; "b"] ∈ CommandQueue.load
    (CoreVisualizer.queue
       (Core._handle_response (JObj resync_request) loaded_ab).2).
Proof.
  split; [reflexivity |].
  destruct (handle_response_resyncs resync_request (JNum 1) loaded_ab eq_refl)
    as [_ Hresync].
  destruct (Hresync eq_refl eq_refl) as (_ & _ & _ & _ & _ & Hload & _).
  apply Hload. left. by_evaluation.
Defined.

(** *** C5, C6, C8, C9, C10 *)

(** A response with status 2. *)
Lemma handle_response_unknown_status_witness :
  Core._handle_response (JObj [ ("status", JNum 2) ]) loaded_ab
  = (Raised (ValueError "Unhandles response from viewer"), loaded_ab).
Proof.
  apply (handle_response_unknown_status _ (JNum 2)); reflexivity.
Defined.

(** C6 fails as stated: on a new [CoreVisualizer], which publishes
    immediately, [draw(("a",), A)], [draw(("a",), B)] and [publish()] all
    return, the publish sends nothing, and the two draws have sent one
    message each: two draw records for ("a",), the first one carrying the
    encoding of [A], which is not that of [B]. *)
Lemma immediate_draws_are_not_coalesced :
  let r1 := Core.draw (up 0) ["a"] shifted CoreVisualizer.new in
  let r2 := Core.draw (up 1) ["a"] eye4 r1.2 in
  let r3 := Core.publish (up 2) r2.2 in
  r1.1 = Returned tt ∧ r2.1 = Returned tt ∧ r3.1 = Returned tt ∧
  CoreVisualizer.lcm r3.2 = CoreVisualizer.lcm r2.2 ∧
  (λ sent, filter (λ r, has_path ["a"] r = true) (message_list "draw" sent.2))
    <$> CoreVisualizer.lcm r3.2
  = [ [JObj [ ("path", json_path ["a"]);
              ("transform", serialize_transform shifted) ]];
      [JObj [ ("path", json_path ["a"]);
              ("transform", serialize_transform eye4) ]] ] ∧
  serialize_transform shifted ≠ serialize_transform eye4.
Proof.
  cbv zeta. do 5 (split; [by vm_compute |]). by vm_compute.
Qed.

(** Two draws at ("a",) in batch mode, the second one shifted, then a
    publish. *)
Lemma draws_coalesce_witness :
  CoreVisualizer.publish_immediately batch_core = false ∧
  ∃ msg,
    CoreVisualizer.lcm
      (Core.publish (up 2)
         (Core.draw (up 1) ["a"] shifted
            (Core.draw (up 0) ["a"] eye4 batch_core).2).2).2
    = CoreVisualizer.lcm batch_core ++ [(request_channel, msg)] ∧
    filter (λ r, has_path ["a"] r = true) (message_list "draw" msg)
    = [JObj [ ("path", json_path ["a"]);
              ("transform", serialize_transform shifted) ]].
Proof.
  split; [reflexivity |].
  destruct (draws_coalesce (up 0) (up 1) (up 2) ["a"] eye4 shifted batch_core
              eq_refl eq_refl) as (_ & _ & _ & Hmsg).
  exact Hmsg.
Defined.


(** The box scene with the codec that reads the translation off the last
    column. *)
Lemma load_box_message_witness :
  translation_from_matrix eye4 = [0; 0; 0]%Q ∧
  quaternion_from_matrix eye4 = [1; 0; 0; 0]%Q ∧
  (Core.publish (up 1)
     (Visualizer.load (up 0) (Visualizer.new (PathStr "/a/b")) unit_box
        CoreVisualizer.new).2).1 = Returned tt.
Proof.
  assert (translation_from_matrix eye4 = [0; 0; 0]%Q) as Htranslation
    by reflexivity.
  assert (quaternion_from_matrix eye4 = [1; 0; 0; 0]%Q) as Hquaternion
    by reflexivity.
  split; [exact Htranslation |]. split; [exact Hquaternion |].
  destruct (load_box_message true 0 1 Htranslation Hquaternion)
    as (_ & Hret & _).
  exact Hret.
Defined.

(** A draw mark whose node was deleted before the flush. *)
Lemma serialize_queue_creates_nodes_witness :
  ["a"] ∈ CommandQueue.draw (CoreVisualizer.queue drawn_then_deleted) ∧
  (["a"] ∉ LazyTree.descendants (CoreVisualizer.tree drawn_then_deleted) []) ∧
  ["a"] ∈ LazyTree.descendants
            (CoreVisualizer.tree
               (Core.serialize_queue (up 2) drawn_then_deleted).2) [].
Proof.
  assert (["a"] ∈ CommandQueue.draw (CoreVisualizer.queue drawn_then_deleted))
    as Hmark by by_evaluation.
  assert (["a"] ∉ LazyTree.descendants (CoreVisualizer.tree drawn_then_deleted) [])
    as Hgone by by_evaluation.
  split; [exact Hmark |]. split; [exact Hgone |].
  assert (["a"] ≠ ([] : path)) as Hne by discriminate.
  destruct (serialize_queue_creates_nodes (up 2) drawn_then_deleted ["a"]
              (or_intror Hmark) Hne Hgone)
    as (fields & draws & _ & Hnode & _).
  exact Hnode.
Defined.

(** * The further properties on concrete scenes *)

(** ("a",) is on the way to the loaded ("a", "b"). *)
Lemma descendants_prefix_closed_witness :
  ["a"; "b"] ∈ LazyTree.descendants (CoreVisualizer.tree loaded_ab) [] ∧
  ["a"] ∈ LazyTree.descendants (CoreVisualizer.tree loaded_ab) [].
Proof.
  assert (["a"; "b"] ∈ LazyTree.descendants (CoreVisualizer.tree loaded_ab) [])
    as Hnode by by_evaluation.
  split; [exact Hnode |].
  apply (descendants_prefix_closed _ ["a"; "b"] ["a"] Hnode); [done |].
  by exists ["b"].
Defined.

(** A pending draw, a failed publish, then the retry. *)
Lemma publish_retry_witness :
  Core.publish (up 2) (Core.publish (down 1) pending_draw).2
  = Core.publish (up 2) pending_draw.
Proof. apply publish_retry; reflexivity. Defined.

(** The message for one pending draw mark. *)
Lemma publish_delete_draw_records_witness :
  CommandQueue.isempty (CoreVisualizer.queue pending_draw) = false ∧
  ∃ msg,
    CoreVisualizer.lcm (Core.publish (up 1) pending_draw).2
      = CoreVisualizer.lcm pending_draw ++ [(request_channel, msg)] ∧
    length (filter (λ r, has_path ["a"] r = true) (message_list "draw" msg)) = 1.
Proof.
  assert (CommandQueue.isempty (CoreVisualizer.queue pending_draw) = false)
    as Hpending by (vm_compute; reflexivity).
  split; [exact Hpending |].
  destruct (publish_delete_draw_records (up 1) pending_draw Hpending eq_refl)
    as (msg & Hlcm & _ & _ & _ & Hone).
  exists msg. split; [exact Hlcm |]. apply Hone. by_evaluation.
Defined.

Lemma publish_envelope_witness :
  CommandQueue.isempty (CoreVisualizer.queue pending_load) = false ∧
  ∃ msg,
    CoreVisualizer.lcm (Core.publish (up 7) pending_load).2
      = CoreVisualizer.lcm pending_load
        ++ [("DIRECTOR_TREE_VIEWER_REQUEST", msg)] ∧
    utime msg = JNum (inject_Z 7).
Proof.
  assert (CommandQueue.isempty (CoreVisualizer.queue pending_load) = false)
    as Hpending by (vm_compute; reflexivity).
  split; [exact Hpending |].
  destruct (publish_envelope (up 7) pending_load Hpending eq_refl)
    as (msg & fields & Hlcm & _ & _ & _ & _ & _ & Hutime & _).
  exists msg. split; [exact Hlcm | exact Hutime].
Defined.

(** One draw on a fresh core, in immediate mode. *)
Lemma immediate_call_message_witness :
  ∃ msg,
    CoreVisualizer.lcm (run_call (up 0) (Draw ["a"] shifted) CoreVisualizer.new).2
      = [(request_channel, msg)] ∧
    message_list "draw" msg
      = [JObj [ ("path", json_path ["a"]);
                ("transform", serialize_transform shifted) ]].
Proof.
  destruct (immediate_call_message (up 0) (Draw ["a"] shifted) CoreVisualizer.new
              eq_refl eq_refl eq_refl eq_refl)
    as (msg & Hlcm & _ & _ & _ & Hdraw).
  exists msg. split; [exact Hlcm | exact Hdraw].
Defined.

(** [delete(("a", "b"))] on a fresh core. *)
Lemma delete_missing_node_witness :
  (["a"; "b"] ∉ LazyTree.descendants (CoreVisualizer.tree CoreVisualizer.new) []) ∧
  (Core.delete (up 0) ["a"; "b"] CoreVisualizer.new).1 = Raised (KeyError "b") ∧
  ["a"] ∈ LazyTree.descendants
            (CoreVisualizer.tree
               (Core.delete (up 0) ["a"; "b"] CoreVisualizer.new).2) [].
Proof.
  assert (["a"] ++ ["b"]
            ∉ LazyTree.descendants (CoreVisualizer.tree CoreVisualizer.new) [])
    as Hmissing by by_evaluation.
  split; [exact Hmissing |].
  destruct (delete_missing_node (up 0) ["a"] "b" CoreVisualizer.new Hmissing)
    as (Hraised & _ & _ & _ & Hnodes & _).
  split; [exact Hraised |]. apply Hnodes. right. split; [discriminate | done].
Defined.

Lemma last_write_wins_witness :
  Core.draw (up 1) ["a"] shifted (Core.draw (up 0) ["a"] turned batch_core).2
  = Core.draw (up 1) ["a"] shifted batch_core.
Proof.
  destruct (last_write_wins (up 0) (up 1) ["a"] turned shifted unit_box unit_box
              batch_core eq_refl) as [Hdraw _].
  exact Hdraw.
Defined.

Lemma load_draw_keep_nodes_witness :
  ["a"; "b"] ∈ LazyTree.descendants
                 (CoreVisualizer.tree
                    (Core.draw (down 1) ["c"] shifted loaded_ab).2) [].
Proof.
  assert (["a"; "b"] ∈ LazyTree.descendants (CoreVisualizer.tree loaded_ab) [])
    as Hnode by by_evaluation.
  destruct (load_draw_keep_nodes (down 1) ["c"] ["a"; "b"] shifted unit_box
              loaded_ab Hnode) as [_ Hdraw].
  exact Hdraw.
Defined.

(** Draw, delete and publish at ("a",) in batch mode. *)
Lemma deleted_node_is_redrawn_witness :
  ∃ msg,
    CoreVisualizer.lcm
      (Core.publish (up 2)
         (Core.delete (up 1) ["a"]
            (Core.draw (up 0) ["a"] shifted batch_core).2).2).2
    = CoreVisualizer.lcm batch_core ++ [(request_channel, msg)] ∧
    JObj [ ("path", json_path ["a"]); ("transform", serialize_transform eye4) ]
      ∈ message_list "draw" msg.
Proof.
  assert (["a"] ≠ ([] : path)) as Hne by discriminate.
  destruct (deleted_node_is_redrawn (up 0) (up 1) (up 2) ["a"] shifted batch_core
              eq_refl Hne eq_refl)
    as (_ & _ & _ & _ & _ & msg & Hlcm & _ & Hdraw).
  exists msg. split; [exact Hlcm | exact Hdraw].
Defined.

Lemma batch_calls_send_nothing_witness :
  CoreVisualizer.lcm (run_calls example_calls batch_core).2 = [].
Proof.
  destruct (batch_calls_send_nothing example_calls batch_core eq_refl)
    as [Hlcm _].
  exact Hlcm.
Defined.

Lemma immediate_call_transport_down_witness :
  (Core.draw (down 0) ["a"] shifted CoreVisualizer.new).1
    = Raised TransportError ∧
  LazyTree.transform
    (LazyTree.node_at
       (CoreVisualizer.tree
          (Core.draw (down 0) ["a"] shifted CoreVisualizer.new).2) ["a"])
  = shifted.
Proof.
  destruct (immediate_call_transport_down (down 0) ["a"] shifted unit_box
              CoreVisualizer.new eq_refl eq_refl)
    as [(Hraised & _ & Htransform & _) _].
  split; [exact Hraised | exact Htransform].
Defined.

Lemma visualizer_path_of_string_witness :
  Visualizer.new (PathStr "/a/b") = Visualizer.Build ["a"; "b"].
Proof.
  apply (visualizer_path_of_string ["a"; "b"]).
  repeat constructor; discriminate.
Defined.

Lemma visualizer_getitem_of_string_witness :
  Visualizer.new (PathStr "/a/b")
  = Visualizer.getitem (Visualizer.new (PathStr "/a")) "b".
Proof.
  apply (visualizer_getitem_of_string "/a" "b"); [discriminate | reflexivity].
Defined.

Lemma visualizer_relative_string_witness :
  EmptyString ∈ Visualizer.path (Visualizer.new (PathStr "a//b")).
Proof.
  assert ("a"%char ≠ "/"%char) as Hc by discriminate.
  destruct (visualizer_relative_string "a" EmptyString "b" Hc) as [_ Hempty].
  exact Hempty.
Defined.

(** Two triads whose transforms differ by a rotation: the codec of the scenes
    gives them the same record. *)
Lemma serialize_geometry_inj_witness :
  GeometryData.serialize (GeometryData.Build Triad [1; 0; 0; 1]%Q eye4)
    = GeometryData.serialize (GeometryData.Build Triad [1; 0; 0; 1]%Q turned) ∧
  serialize_transform eye4 = serialize_transform turned.
Proof.
  assert (GeometryData.serialize (GeometryData.Build Triad [1; 0; 0; 1]%Q eye4)
          = GeometryData.serialize (GeometryData.Build Triad [1; 0; 0; 1]%Q turned))
    as Hsame by reflexivity.
  split; [exact Hsame |].
  destruct (serialize_geometry_inj _ _ Hsame) as (_ & _ & Htransform).
  exact Htransform.
Defined.
